(** * PropVest-AI: the metrics engine of [utils/calculations.ts]

    [calculateMetrics] maps a [Property] to a [CalculationResult] with
    nothing but arithmetic on JavaScript numbers, one comparison, one
    [||] and two calls of [Math.pow].  The function is embedded once,
    over an interface of number operations, and read in two ways:

    - [Binary64]: IEEE 754 double precision, as the Standard Library
      specifies it ([spec_float] with 53 bits of precision), with NaN,
      the two infinities and the two zeros.  This is what the program
      computes.
    - [Exact]: the rationals [Qc], for the identities that the
      specification states "over exact arithmetic".

    [Math.pow] is implementation-approximated in ECMAScript, so it is an
    argument of both readings. *)

From Stdlib Require Import ZArith QArith Qpower Qabs Qcanon Bool String List Lia Lqa.
From Stdlib Require Import Floats.SpecFloat.
From Stdlib Require Import Ascii DecimalString DecimalPos DecimalN.
Import ListNotations.

Set Implicit Arguments.

(** ** The operations the engine performs on numbers *)

Class NumberOps (num : Type) : Type := {
  lit      : Q -> num;              (* a numeric literal of the source *)
  add      : num -> num -> num;      (* a + b *)
  sub      : num -> num -> num;      (* a - b *)
  mul      : num -> num -> num;      (* a * b *)
  div      : num -> num -> num;      (* a / b *)
  Math_pow : num -> num -> num;      (* Math.pow(a, b) *)
  gt       : num -> num -> bool;     (* a > b *)
  truthy   : num -> bool             (* ToBoolean(a) *)
}.

Declare Scope num_scope.
Delimit Scope num_scope with num.
Notation "# q" := (lit q%Q) (at level 1, format "# q") : num_scope.
Infix "+" := add : num_scope.
Infix "-" := sub : num_scope.
Infix "*" := mul : num_scope.
Infix "/" := div : num_scope.
Infix ">?" := gt (at level 70, no associativity) : num_scope.

(** ** types.ts *)

Record Property (num : Type) : Type := {
  id : string;
  address : string;
  price : num;
  images : list string;
  bedrooms : num;
  bathrooms : num;
  sqft : num;
  downPaymentPercent : num;
  interestRate : num;
  loanTermYears : num;
  nightlyRate : num;
  occupancyRate : num;
  propertyTax : num;
  insurance : num;
  managementFeePercent : num;
  snowRemoval : num;
  (* declared [number]; [None] is a record built without the field, which
     the engine's [|| 0] provides for *)
  hotTubMaintenance : option num;
  utilities : num;
  maintenance : num;
  hoa : num;
  otherExpenses : num;
  aiDescription : option string;
  fairOfferRecommendation : option string;
  isFavorite : option bool
}.

Record CalculationResult (num : Type) : Type := {
  monthlyMortgage : num;
  monthlyIncome : num;
  monthlyExpenses : num;
  cashFlow : num;
  cashOnCashReturn : num;
  capRate : num;
  totalInvestment : num
}.

(** ** utils/calculations.ts *)

Section Engine.
Context {num : Type} {ops : NumberOps num}.
Local Open Scope num_scope.

(** [v || d] where [v] is a number or missing. *)
Definition or_else (v : option num) (d : num) : num :=
  match v with
  | Some x => if truthy x then x else d
  | None => d
  end.

(** Absent, or a number that [||] skips. *)
Definition falsy (v : option num) : bool :=
  match v with
  | Some x => negb (truthy x)
  | None => true
  end.

(** The locals of [calculateMetrics] that the result does not carry. *)
Definition downPayment (p : Property num) : num :=
  price p * (downPaymentPercent p / #100).

Definition loanAmount (p : Property num) : num :=
  price p - downPayment p.

Definition monthlyRate (p : Property num) : num :=
  interestRate p / #100 / #12.

Definition numberOfPayments (p : Property num) : num :=
  loanTermYears p * #12.

Definition managementFee (p : Property num) (monthlyIncome : num) : num :=
  monthlyIncome * (managementFeePercent p / #100).

Definition calculateMetrics (p : Property num) : CalculationResult num :=
  (* 1. Mortgage Calculation *)
  let downPayment := price p * (downPaymentPercent p / #100) in
  let loanAmount := price p - downPayment in
  let monthlyRate := interestRate p / #100 / #12 in
  let numberOfPayments := loanTermYears p * #12 in
  let monthlyMortgage :=
    if monthlyRate >? #0 then
      (loanAmount * monthlyRate * Math_pow (#1 + monthlyRate) numberOfPayments) /
      (Math_pow (#1 + monthlyRate) numberOfPayments - #1)
    else
      loanAmount / numberOfPayments in
  (* 2. Income Calculation *)
  let monthlyIncome := (nightlyRate p * #365 * (occupancyRate p / #100)) / #12 in
  (* 3. Expense Calculation *)
  let managementFee := monthlyIncome * (managementFeePercent p / #100) in
  let monthlyTax := propertyTax p / #12 in
  let monthlyInsurance := insurance p / #12 in
  let monthlyExpenses :=
    managementFee +
    monthlyTax +
    monthlyInsurance +
    snowRemoval p +
    (or_else (hotTubMaintenance p) #0) +
    utilities p +
    maintenance p +
    hoa p +
    otherExpenses p in
  (* 4. Profitability *)
  let cashFlow := monthlyIncome - monthlyExpenses - monthlyMortgage in
  let annualCashFlow := cashFlow * #12 in
  let closingCosts := price p * #0.03 in
  let totalInvestment := downPayment + closingCosts in
  let cashOnCashReturn :=
    if totalInvestment >? #0 then (annualCashFlow / totalInvestment) * #100 else #0 in
  let annualNOI := (monthlyIncome - monthlyExpenses) * #12 in
  let capRate := (annualNOI / price p) * #100 in
  {| monthlyMortgage := monthlyMortgage;
     monthlyIncome := monthlyIncome;
     monthlyExpenses := monthlyExpenses;
     cashFlow := cashFlow;
     cashOnCashReturn := cashOnCashReturn;
     capRate := capRate;
     totalInvestment := totalInvestment |}.

(** Replacing one field of a [Property]. *)
Definition with_hotTubMaintenance (p : Property num) (v : option num) : Property num :=
  {| id := id p; address := address p; price := price p; images := images p;
     bedrooms := bedrooms p; bathrooms := bathrooms p; sqft := sqft p;
     downPaymentPercent := downPaymentPercent p; interestRate := interestRate p;
     loanTermYears := loanTermYears p; nightlyRate := nightlyRate p;
     occupancyRate := occupancyRate p; propertyTax := propertyTax p;
     insurance := insurance p; managementFeePercent := managementFeePercent p;
     snowRemoval := snowRemoval p; hotTubMaintenance := v;
     utilities := utilities p; maintenance := maintenance p; hoa := hoa p;
     otherExpenses := otherExpenses p; aiDescription := aiDescription p;
     fairOfferRecommendation := fairOfferRecommendation p;
     isFavorite := isFavorite p |}.

Definition with_financing (p : Property num)
                          (price' downPaymentPercent' interestRate' loanTermYears' : num)
  : Property num :=
  {| id := id p; address := address p; price := price'; images := images p;
     bedrooms := bedrooms p; bathrooms := bathrooms p; sqft := sqft p;
     downPaymentPercent := downPaymentPercent'; interestRate := interestRate';
     loanTermYears := loanTermYears'; nightlyRate := nightlyRate p;
     occupancyRate := occupancyRate p; propertyTax := propertyTax p;
     insurance := insurance p; managementFeePercent := managementFeePercent p;
     snowRemoval := snowRemoval p; hotTubMaintenance := hotTubMaintenance p;
     utilities := utilities p; maintenance := maintenance p; hoa := hoa p;
     otherExpenses := otherExpenses p; aiDescription := aiDescription p;
     fairOfferRecommendation := fairOfferRecommendation p;
     isFavorite := isFavorite p |}.

(** A [Property] from the fifteen numbers the engine reads; the other
    fields are empty or zero. *)
Definition mkProperty (price downPaymentPercent interestRate loanTermYears
                       nightlyRate occupancyRate propertyTax insurance
                       managementFeePercent snowRemoval : num)
                      (hotTubMaintenance : option num)
                      (utilities maintenance hoa otherExpenses : num) : Property num :=
  {| id := ""; address := ""; price := price; images := [];
     bedrooms := #0; bathrooms := #0; sqft := #0;
     downPaymentPercent := downPaymentPercent; interestRate := interestRate;
     loanTermYears := loanTermYears; nightlyRate := nightlyRate;
     occupancyRate := occupancyRate; propertyTax := propertyTax;
     insurance := insurance; managementFeePercent := managementFeePercent;
     snowRemoval := snowRemoval; hotTubMaintenance := hotTubMaintenance;
     utilities := utilities; maintenance := maintenance; hoa := hoa;
     otherExpenses := otherExpenses; aiDescription := None;
     fairOfferRecommendation := None; isFavorite := None |}.

(** The standard case of the specification (200 a night at 60%
    occupancy, 5000 of tax and 1500 of insurance a year, a 25%
    management fee, no other cost), with the financing and the hot tub
    left open. *)
Definition scenario (price downPaymentPercent interestRate loanTermYears : Q)
                    (hotTubMaintenance : option num) : Property num :=
  mkProperty #price #downPaymentPercent #interestRate #loanTermYears
             #200 #60 #5000 #1500 #25 #0 hotTubMaintenance #0 #0 #0 #0.
End Engine.

(** ** IEEE 754 binary64: the numbers of the implementation *)

Module Binary64.
Definition prec : Z := 53.
Definition emax : Z := 1024.
Definition float : Type := spec_float.

Definition NaN : float := S754_nan.
Definition pzero : float := S754_zero false.

(** An integer, rounded to nearest even when it needs more than 53 bits. *)
Definition of_Z (z : Z) : float := binary_normalize prec emax z 0 false.

Definition fadd : float -> float -> float := SFadd prec emax.
Definition fsub : float -> float -> float := SFsub prec emax.
Definition fmul : float -> float -> float := SFmul prec emax.
Definition fdiv : float -> float -> float := SFdiv prec emax.

(** A decimal literal [n/d]: its numerator and denominator are exact in
    binary64 for every literal of the source, and the division rounds
    their quotient correctly, as the parser does. *)
Definition flit (q : Q) : float := fdiv (of_Z (Qnum q)) (of_Z (Zpos (Qden q))).

(** [a > b]: false as soon as one side is NaN. *)
Definition fgt (a b : float) : bool := SFltb b a.

(** ToBoolean on a number: false on +0, -0 and NaN. *)
Definition ftruthy (a : float) : bool :=
  match a with
  | S754_zero _ | S754_nan => false
  | _ => true
  end.

Definition is_zero (a : float) : bool :=
  match a with S754_zero _ => true | _ => false end.

Definition is_nan (a : float) : bool :=
  match a with S754_nan => true | _ => false end.

(** Number.isFinite *)
Definition is_finite (a : float) : bool :=
  match a with S754_zero _ | S754_finite _ _ _ => true | _ => false end.

(** [a < b] and [a <= b]: false as soon as one side is NaN. *)
Definition flt (a b : float) : bool := SFltb a b.
Definition fle (a b : float) : bool := SFleb a b.

(** The field [hotTubMaintenance] is missing, a zero or NaN. *)
Definition absent_zero_or_nan (v : option float) : bool :=
  match v with
  | None => true
  | Some x => is_zero x || is_nan x
  end.

(** What a rounding that carries the sign [s] can return. *)
Inductive rounded (s : bool) : float -> Prop :=
| rounded_zero : rounded s (S754_zero s)
| rounded_finite (m : positive) (e : Z) : rounded s (S754_finite s m e)
| rounded_infinity : rounded s (S754_infinity s).

(** The value [m * 2^e] of a mantissa at an exponent. *)
Definition pow2 (e : Z) : Q := (2 ^ e)%Q.

Definition val (m e : Z) : Q := (inject_Z m * pow2 e)%Q.

(** The shifted mantissa stays below a bound [B], strictly so when bits
    were lost. *)
Definition below (B : Q) (mrs : shr_record) (e : Z) : Prop :=
  (0 <= shr_m mrs)%Z /\ (val (shr_m mrs) e <= B)%Q /\
  (shr_r mrs || shr_s mrs = true -> (val (shr_m mrs) e < B)%Q).

(** A result of rounding that is a zero or a positive number at most [B]. *)
Definition at_most (B : Q) (r : float) : Prop :=
  match r with
  | S754_zero false => True
  | S754_finite false m e => (val (Zpos m) e <= B)%Q
  | _ => False
  end.

(** 1 is [one_m * 2^-52]. *)
Definition one_m : positive := 4503599627370496.

(** The mantissa is the integer part of [X] at the exponent [e]. *)
Definition floor_at (X : Q) (m e : Z) : Prop :=
  (0 <= m)%Z /\ (val m e <= X)%Q /\ (X < val (m + 1) e)%Q.

(** The magnitude of a finite number, 0 for the others. *)
Definition magnitude (z : float) : Q :=
  match z with
  | S754_finite _ m e => val (Zpos m) e
  | _ => 0%Q
  end.

(** A zero, or a finite number with an exponent of the format. *)
Definition in_range (z : float) : Prop :=
  match z with
  | S754_zero _ => True
  | S754_finite _ _ e => (emin prec emax <= e)%Z
  | _ => False
  end.

(** The rational a finite number stands for, 0 for the others. *)
Definition value (z : float) : Q :=
  match z with
  | S754_finite s m e => val (cond_Zopp s (Zpos m)) e
  | _ => 0%Q
  end.

(** Finite numbers are in the range of the format. *)
Definition tame (z : float) : Prop := is_finite z = true -> in_range z.

(** A number of the format, and a field that holds one when it is there. *)
Definition valid (x : float) : bool := valid_binary prec emax x.

Definition valid_option (v : option float) : bool :=
  match v with
  | Some x => valid x
  | None => true
  end.

Definition ops (pow : float -> float -> float) : NumberOps float :=
  {| lit := flit; add := fadd; sub := fsub; mul := fmul; div := fdiv;
     Math_pow := pow; gt := fgt; truthy := ftruthy |}.

(** One [Math.pow] to run the engine with: repeated multiplication for
    an exponent that is a natural number, NaN otherwise. *)
Definition to_N (a : float) : option N :=
  match a with
  | S754_zero _ => Some 0%N
  | S754_finite false m (Zpos k) => Some (Npos (Pos.iter xO m k))
  | S754_finite false m Z0 => Some (Npos m)
  | S754_finite false m (Zneg k) =>
      let d := Z.pow 2 (Zpos k) in
      if Z.eqb (Z.modulo (Zpos m) d) 0 then Some (Z.to_N (Z.div (Zpos m) d)) else None
  | _ => None
  end.

Definition pow_iter (a b : float) : float :=
  match to_N b with
  | Some n => N.iter n (fun acc => fmul acc a) (of_Z 1)
  | None => NaN
  end.

(** Inputs to run the engine on. *)
Definition scenarioA : Property float :=
  @scenario float (ops pow_iter) 450000 20 6.8 30 (Some pzero).

Definition scenarioB : Property float :=
  @scenario float (ops pow_iter) 120000 100 0 10 (Some pzero).

Definition scenarioC : Property float :=
  @scenario float (ops pow_iter) 0 0 6.8 30 (Some pzero).

Definition negativeRate : Property float :=
  @scenario float (ops pow_iter) 450000 20 (-1) 30 (Some pzero).

Definition negativePrice : Property float :=
  @scenario float (ops pow_iter) (-100000) 20 6.8 30 (Some pzero).

Definition zeroTerm : Property float :=
  @scenario float (ops pow_iter) 450000 20 0 0 (Some pzero).

Definition hotTubNaN : Property float :=
  @scenario float (ops pow_iter) 450000 20 6.8 30 (Some NaN).

Definition snowRemovalNaN : Property float :=
  @mkProperty float (ops pow_iter) (of_Z 450000) (of_Z 20) (flit 6.8) (of_Z 30) (of_Z 200) (of_Z 60)
             (of_Z 5000) (of_Z 1500) (of_Z 25) NaN (Some pzero)
             pzero pzero pzero pzero.
End Binary64.

(** ** Exact arithmetic: the rationals *)

Module Exact.
Definition qgt (a b : Qc) : bool :=
  match Qccompare b a with Lt => true | _ => false end.

Definition qtruthy (a : Qc) : bool := negb (Qc_eq_bool a (Q2Qc 0)).

Definition ops (pow : Qc -> Qc -> Qc) : NumberOps Qc :=
  {| lit := Q2Qc; add := Qcplus; sub := Qcminus; mul := Qcmult; div := Qcdiv;
     Math_pow := pow; gt := qgt; truthy := qtruthy |}.

(** Exponentiation for an exponent that is a natural number, 0 otherwise. *)
Definition pow_nat (a b : Qc) : Qc :=
  match Qnum (this b), Qden (this b) with
  | Z0, _ => Q2Qc 1
  | Zpos n, xH => Qcpower a (Pos.to_nat n)
  | _, _ => Q2Qc 0
  end.

(** Inputs to evaluate the engine on. *)
Definition standard : Property Qc :=
  @scenario Qc (ops pow_nat) 450000 20 6.8 30 (Some (Q2Qc 0)).

Definition belowZero : Property Qc :=
  @scenario Qc (ops pow_nat) (-100000) 20 6.8 30 (Some (Q2Qc 0)).
End Exact.

Import Binary64.

(** ** utils/calculations.ts: [formatPercent]

    [formatPercent] is [Number.prototype.toFixed] with two fraction
    digits, followed by a percent sign.  [toFixed] is modelled step by
    step after ECMA-262: the sign is set aside, the integer [n] closest
    to a hundred times the magnitude is taken, the larger one when two
    are as close, and its decimal digits are written with a point before
    the last two.  From 10^21 on the standard falls back on
    [Number::toString], which is an argument here. *)

Module Format.
Local Open Scope string_scope.

(** The digits of the decimal representation of [n], with no leading
    zeroes; the digit 0 for 0. *)
Definition decimal (n : N) : string := NilZero.string_of_uint (N.to_uint n).

(** [10^21 <= m * 2^e] *)
Definition at_least_1e21 (m : positive) (e : Z) : bool :=
  match e with
  | Zneg k => (10 ^ 21 * 2 ^ Zpos k <=? Zpos m)%Z
  | _ => (10 ^ 21 <=? Zpos m * 2 ^ e)%Z
  end.

(** The integer [n] for which [n / 10^2 - m * 2^e] is as close to zero
    as possible, the larger one if there are two. *)
Definition hundredths (m : positive) (e : Z) : N :=
  match e with
  | Zneg k => Z.to_N ((200 * Zpos m + 2 ^ Zpos k) / (2 * 2 ^ Zpos k))
  | _ => Z.to_N (100 * Zpos m * 2 ^ e)
  end.

Fixpoint zeros (n : nat) : string :=
  match n with
  | O => EmptyString
  | S n => String "0" (zeros n)
  end.

(** The digits [m] of [n] with the point: padded with zeros to three
    digits, then cut before the last two. *)
Definition point (m : string) : string :=
  let k := String.length m in
  let m := if (k <=? 2)%nat then zeros (2 + 1 - k) ++ m else m in
  let k := if (k <=? 2)%nat then (2 + 1)%nat else k in
  let a := substring 0 (k - 2) m in
  let b := substring (k - 2) 2 m in
  a ++ "." ++ b.

Section ToFixed.
(** [Number::toString] on the finite numbers from 10^21 on. *)
Variable Number_toString : float -> string.

(** [x.toFixed(2)] *)
Definition toFixed_2 (x : float) : string :=
  match x with
  | S754_nan => "NaN"
  | S754_infinity false => "Infinity"
  | S754_infinity true => "-Infinity"
  | S754_zero _ => point (decimal 0)
  | S754_finite sx m e =>
      let s := if sx then "-" else EmptyString in
      if at_least_1e21 m e then s ++ Number_toString (S754_finite false m e)
      else s ++ point (decimal (hundredths m e))
  end.

Definition formatPercent (val : float) : string := toFixed_2 val ++ "%".
End ToFixed.

(** Reading a string of decimal digits. *)
Definition read_decimal (s : string) : option N :=
  option_map N.of_uint (NilEmpty.uint_of_string s).

(** [n] zeros before the digits [d]. *)
Fixpoint leading_zeros (n : nat) (d : Decimal.uint) : Decimal.uint :=
  match n with
  | O => d
  | S n => Decimal.D0 (leading_zeros n d)
  end.

(** A [Number::toString] to run [formatPercent] with below 10^21, where
    it is not called. *)
Definition unused (x : float) : string := EmptyString.
End Format.

(** ** services/geminiService.ts: the text handed to [JSON.parse]

    A [string] is read as the sequence of the code units of a JavaScript
    string, for texts whose code units are below 256; the characters
    the code looks for (backticks, brackets, commas, white space) are
    all in that range. *)

Module Text.
Local Open Scope string_scope.

(** [s.replace(/pat/g, '')] for a pattern [pat] of literal characters:
    the matches are taken from left to right and do not overlap.
    [skip] counts the characters of a match still to drop. *)
Fixpoint remove_from (pat : string) (skip : nat) (s : string) : string :=
  match s with
  | EmptyString => EmptyString
  | String c s' =>
      match skip with
      | S k => remove_from pat k s'
      | O => if prefix pat s then remove_from pat (String.length pat - 1) s'
             else String c (remove_from pat 0 s')
      end
  end.

Definition remove_all (pat s : string) : string := remove_from pat 0 s.

(** WhiteSpace and LineTerminator among the code units below 256: TAB,
    LF, VT, FF, CR, SP and NBSP. *)
Definition is_space (c : ascii) : bool :=
  let n := nat_of_ascii c in
  ((9 <=? n) && (n <=? 13) || (n =? 32) || (n =? 160))%nat.

Fixpoint trimStart (s : string) : string :=
  match s with
  | String c s' => if is_space c then trimStart s' else s
  | EmptyString => EmptyString
  end.

Fixpoint trimEnd (s : string) : string :=
  match s with
  | EmptyString => EmptyString
  | String c s' =>
      match trimEnd s' with
      | EmptyString => if is_space c then EmptyString else String c EmptyString
      | t => String c t
      end
  end.

Definition trim (s : string) : string := trimEnd (trimStart s).

(** [s.indexOf(c)] and [s.lastIndexOf(c)] for one character; [None] is -1. *)
Fixpoint indexOf (c : ascii) (s : string) : option nat :=
  match s with
  | EmptyString => None
  | String a s' => if Ascii.eqb a c then Some O else option_map S (indexOf c s')
  end.

Fixpoint lastIndexOf (c : ascii) (s : string) : option nat :=
  match s with
  | EmptyString => None
  | String a s' =>
      match lastIndexOf c s' with
      | Some i => Some (S i)
      | None => if Ascii.eqb a c then Some O else None
      end
  end.

(** [s.substring(a, b)]: the two ends are swapped when [a > b]. *)
Definition js_substring (a b : nat) (s : string) : string :=
  substring (Nat.min a b) (Nat.max a b - Nat.min a b) s.

(** [s.split(sep)] for one character. *)
Fixpoint split (sep : ascii) (s : string) : list string :=
  match s with
  | EmptyString => [EmptyString]
  | String c s' =>
      if Ascii.eqb c sep then EmptyString :: split sep s'
      else match split sep s' with
           | field :: fields => String c field :: fields
           | [] => [String c EmptyString]
           end
  end.

(** [text.replace(/```json/g, '').replace(/```/g, '').trim()] *)
Definition stripFences (text : string) : string :=
  trim (remove_all "```" (remove_all "```json" text)).

(** The text from the first [open] to the last [close], when both occur:
    [jsonStart], [jsonEnd] and the [substring] of [fetchListingsByCity]
    and [fetchPropertyListing]. *)
Definition outermost (open close : ascii) (text : string) : string :=
  match indexOf open text, lastIndexOf close text with
  | Some jsonStart, Some jsonEnd => js_substring jsonStart (jsonEnd + 1) text
  | _, _ => text
  end.

(** What [fetchListingsByCity] and [fetchPropertyListing] hand to
    [JSON.parse]; [response] is [response.text], which may be missing. *)
Definition listingsText (response : option string) : string :=
  let text := match response with Some EmptyString | None => "[]" | Some t => t end in
  outermost "[" "]" (stripFences text).

Definition listingText (response : option string) : string :=
  let text := match response with Some EmptyString | None => "{}" | Some t => t end in
  outermost "{" "}" (stripFences text).

(** [pat] does not occur in [s]. *)
Definition free (pat s : string) : Prop := forall a b : string, s <> a ++ pat ++ b.

Definition backtick : ascii := "`"%char.

Definition starts (c : ascii) (s : string) : bool :=
  match s with
  | String a _ => Ascii.eqb a c
  | EmptyString => false
  end.

Fixpoint occurs (pat s : string) : bool :=
  prefix pat s || match s with
                  | String _ s' => occurs pat s'
                  | EmptyString => false
                  end.
End Text.

(** ** services/geminiService.ts and components/AddPropertyModal.tsx *)

(** What [fetchPropertyListing] resolves to, as [handleSearch] reads it:
    a field holds a string, a number or an array of strings, or is
    missing. *)
Record Listing (num : Type) : Type := {
  l_address : option string;
  l_price : option num;
  l_bedrooms : option num;
  l_bathrooms : option num;
  l_sqft : option num;
  l_propertyTax : option num;
  l_hoa : option num;
  l_nightlyRate : option num;
  l_occupancyRate : option num;
  l_insurance : option num;
  l_snowRemoval : option num;
  l_hotTubMaintenance : option num;
  l_utilities : option num;
  l_fairOfferRecommendation : option string;
  l_images : option (list string)
}.

Section AddProperty.
Context {num : Type} {ops : NumberOps num}.
Local Open Scope num_scope.
Local Open Scope string_scope.

(** [v || d] on strings: the empty string is skipped. *)
Definition or_else_string (v : option string) (d : string) : string :=
  match v with
  | Some EmptyString | None => d
  | Some s => s
  end.

(** The fallback of [fetchPropertyListing]. *)
Definition fallbackListing (query : string) : Listing num :=
  {| l_address := Some (if prefix "http" query then "New Property Listing" else query);
     l_price := Some #0;
     l_bedrooms := Some #0;
     l_bathrooms := Some #0;
     l_sqft := Some #0;
     l_propertyTax := Some #0;
     l_hoa := Some #0;
     l_nightlyRate := Some #0;
     l_occupancyRate := Some #0;
     l_insurance := Some #0;
     l_snowRemoval := Some #0;
     l_hotTubMaintenance := Some #0;
     l_utilities := Some #0;
     l_fairOfferRecommendation :=
       Some "Could not automatically fetch details. Please verify the address or link.";
     l_images := Some [] |}.

Section Fetch.
(** [JSON.parse], then the fields read as above; [None] when it throws. *)
Variable JSON_parse : string -> option (Listing num).

(** [fetchPropertyListing]: [response] is [None] when the request is
    rejected, and the [response.text] it resolves with otherwise.  A
    rejection and a text that does not parse both end in the fallback. *)
Definition fetchPropertyListing (response : option (option string)) (query : string)
  : Listing num :=
  match response with
  | None => fallbackListing query
  | Some text =>
      match JSON_parse (Text.listingText text) with
      | Some data => data
      | None => fallbackListing query
      end
  end.
End Fetch.

(** The test of the image filter of [handleSearch]:
    [url && url.length > 10 && (url.startsWith('http') || url.startsWith('data:'))]. *)
Definition goodUrl (url : string) : bool :=
  negb (String.eqb url EmptyString) && (10 <? String.length url)%nat &&
  (prefix "http" url || prefix "data:" url).

(** The property [handleSearch] adds for the answer [data]; [now] is
    [Date.now().toString()].  [images] is [None] when [data.images] is
    missing or not an array, which both end in no image. *)
Definition newProperty (now query : string) (data : Listing num) : Property num :=
  let images := match l_images data with Some images => images | None => [] end in
  let images := filter goodUrl images in
  {| id := now;
     address := or_else_string (l_address data) query;
     price := or_else (l_price data) #450000;
     images := images;
     bedrooms := or_else (l_bedrooms data) #3;
     bathrooms := or_else (l_bathrooms data) #2;
     sqft := or_else (l_sqft data) #1500;
     downPaymentPercent := #20;
     interestRate := #6.8;
     loanTermYears := #30;
     nightlyRate := or_else (l_nightlyRate data) #200;
     occupancyRate := or_else (l_occupancyRate data) #60;
     propertyTax := or_else (l_propertyTax data) #5000;
     insurance := or_else (l_insurance data) #1500;
     managementFeePercent := #25;
     snowRemoval := or_else (l_snowRemoval data) #0;
     hotTubMaintenance := Some (or_else (l_hotTubMaintenance data) #0);
     utilities := or_else (l_utilities data) #300;
     maintenance := #250;
     hoa := or_else (l_hoa data) #0;
     otherExpenses := #0;
     aiDescription := None;
     fairOfferRecommendation := l_fairOfferRecommendation data;
     isFavorite := None |}.
End AddProperty.

(** ** services/geminiService.ts and components/MediaStudio.tsx: images *)

Module Media.
Local Open Scope string_scope.

Record Blob : Type := {
  mimeType : option string;
  data : option string
}.

Record Part : Type := {
  text : option string;
  inlineData : option Blob
}.

(** [part.inlineData && part.inlineData.data] *)
Definition inlineImage (part : Part) : option string :=
  match inlineData part with
  | Some blob =>
      match data blob with
      | Some EmptyString | None => None
      | Some d => Some d
      end
  | None => None
  end.

Definition no_image (part : Part) : bool :=
  match inlineImage part with Some _ => false | None => true end.

(** The loop over [parts]. *)
Fixpoint firstImage (parts : list Part) : option string :=
  match parts with
  | [] => None
  | part :: parts' =>
      match inlineImage part with
      | Some d => Some ("data:image/png;base64," ++ d)
      | None => firstImage parts'
      end
  end.

(** [editPropertyImage]: [response] is the message of the error when the
    request is rejected, and [response.candidates?.[0]?.content?.parts]
    otherwise; the result is the URL it returns or the message of the
    error it throws. *)
Definition editPropertyImage (response : string + option (list Part)) : string + string :=
  match response with
  | inl message => inr message
  | inr None => inr "No image generated"
  | inr (Some parts) =>
      match firstImage parts with
      | Some url => inl url
      | None => inr "No image generated"
      end
  end.

(** [base64String.split(',')[1]] of [getBase64FromUrl]; [None] is
    [undefined]. *)
Definition payload (base64String : string) : option string :=
  nth_error (Text.split "," base64String) 1.
End Media.

(** ** components/PropertyDetail.tsx: the gallery

    [currentImageIndex] holds an integer, on which [+], [-] and [%] are
    exact; [%] takes the sign of the dividend. *)

Module Gallery.
Section Gallery.
Context {num : Type}.

Definition nextImage (property : Property num) (prev : Z) : Z :=
  let length := Z.of_nat (List.length (images property)) in
  if (length =? 0)%Z then prev else Z.rem (prev + 1) length.

Definition prevImage (property : Property num) (prev : Z) : Z :=
  let length := Z.of_nat (List.length (images property)) in
  if (length =? 0)%Z then prev else Z.rem (prev - 1 + length) length.

Definition hasImages (property : Property num) : bool :=
  (0 <? Z.of_nat (List.length (images property)))%Z.

(** [l[i]]; [None] is [undefined]. *)
Definition element (l : list string) (i : Z) : option string :=
  if (i <? 0)%Z then None else nth_error l (Z.to_nat i).

(** [currentImage]; [None] is [null] or [undefined]. *)
Definition currentImage (property : Property num) (currentImageIndex : Z) : option string :=
  if hasImages property then element (images property) currentImageIndex else None.

(** The three ways to move in the gallery: the two arrows and the
    thumbnail of the image [i]. *)
Inductive click : Type := Next | Prev | Thumbnail (i : nat).

(** There is one thumbnail for each image. *)
Definition offered (property : Property num) (c : click) : bool :=
  match c with
  | Thumbnail i => (i <? List.length (images property))%nat
  | _ => true
  end.

Definition on_click (property : Property num) (currentImageIndex : Z) (c : click) : Z :=
  match c with
  | Next => nextImage property currentImageIndex
  | Prev => prevImage property currentImageIndex
  | Thumbnail i => Z.of_nat i
  end.

(** The index after a run of clicks, from the initial 0. *)
Definition after_clicks (property : Property num) (cs : list click) : Z :=
  fold_left (on_click property) cs 0%Z.

(** An index of an image. *)
Definition in_gallery (property : Property num) (i : Z) : Prop :=
  (0 <= i < Z.of_nat (List.length (images property)))%Z.
End Gallery.
End Gallery.

(** ** components/LiveAssistant.tsx: the playback schedule *)

Module LiveAssistant.

(** [Math.max(a, b)]: NaN as soon as one argument is NaN; otherwise the
    arguments are taken in turn against the highest so far, which starts
    at -Infinity, and +0 is above -0. *)
Definition max_step (highest number : float) : float :=
  match number, highest with
  | S754_zero false, S754_zero true => number
  | _, _ => if fgt number highest then number else highest
  end.

Definition Math_max (a b : float) : float :=
  if is_nan a || is_nan b then NaN
  else max_step (max_step (S754_infinity true) a) b.

(** A message of the server, as [onmessage] reads it: the audio it may
    carry, with the clock [outputCtx.currentTime] when it is scheduled
    and the duration of the decoded buffer, and the flag [interrupted]. *)
Record Message : Type := {
  audio : option (float * float);
  interrupted : bool
}.

(** One buffer given to [source.start], and where it ends. *)
Record Chunk : Type := {
  currentTime : float;
  start : float;
  finish : float
}.

(** [onmessage] on [nextStartTimeRef.current]: the chunk it starts, if
    any, and the new value of the reference. *)
Definition onmessage (nextStartTime : float) (msg : Message) : option Chunk * float :=
  let '(chunk, nextStartTime) :=
    match audio msg with
    | Some (currentTime, duration) =>
        let nextStartTime := Math_max nextStartTime currentTime in
        let start := nextStartTime in
        let nextStartTime := fadd nextStartTime duration in
        (Some {| currentTime := currentTime; start := start; finish := nextStartTime |},
         nextStartTime)
    | None => (None, nextStartTime)
    end in
  if interrupted msg then (chunk, flit 0) else (chunk, nextStartTime).

(** The reference after a run of messages. *)
Definition after_messages (nextStartTime : float) (msgs : list Message) : float :=
  fold_left (fun t msg => snd (onmessage t msg)) msgs nextStartTime.

(** Not negative and not NaN: +0, a positive number or +Infinity. *)
Definition nonneg (x : float) : bool :=
  match x with
  | S754_zero false | S754_finite false _ _ | S754_infinity false => true
  | _ => false
  end.

(** A clock value or a duration: not negative, and finite. *)
Definition time (x : float) : bool := nonneg x && is_finite x.

Definition timed (msg : Message) : bool :=
  match audio msg with
  | Some (currentTime, duration) => time currentTime && time duration
  | None => true
  end.
End LiveAssistant.

(** ** Inputs to run the code on *)

Module Inputs.
Local Open Scope string_scope.

(** A listing with three images the filter keeps and two it drops. *)
Definition listing : Listing float :=
  {| l_address := Some "12 Pine Road";
     l_price := Some (of_Z 380000);
     l_bedrooms := None; l_bathrooms := None; l_sqft := Some NaN;
     l_propertyTax := None; l_hoa := None;
     l_nightlyRate := Some pzero; l_occupancyRate := None;
     l_insurance := None; l_snowRemoval := None; l_hotTubMaintenance := Some NaN;
     l_utilities := None; l_fairOfferRecommendation := None;
     l_images := Some ["https://img.example/1.jpg"; "ftp://img.example/2.jpg";
                       "http://a"; "https://img.example/3.jpg";
                       "data:image/png;base64,AAAA"] |}.

Definition added : Property float :=
  @newProperty float (Binary64.ops pow_iter) "1700000000000" "12 Pine Road" listing.

(** An answer in a fenced block. *)
Definition fenced : string := "Here: ```json [1, 2] ``` done".

(** Parts of an answer: a text, an empty image and two images. *)
Definition note : Media.Part :=
  {| Media.text := Some "Here is the edit"; Media.inlineData := None |}.

Definition empty_image : Media.Part :=
  {| Media.text := None;
     Media.inlineData := Some {| Media.mimeType := Some "image/png";
                                 Media.data := Some EmptyString |} |}.

Definition image : Media.Part :=
  {| Media.text := None;
     Media.inlineData := Some {| Media.mimeType := Some "image/png";
                                 Media.data := Some "iVBORw0KGgo=" |} |}.

Definition second_image : Media.Part :=
  {| Media.text := None;
     Media.inlineData := Some {| Media.mimeType := None; Media.data := Some "AAAA" |} |}.

(** Two buffers of half a second, the second one arriving while the
    first plays, and an interruption. *)
Definition chunk1 : LiveAssistant.Message :=
  {| LiveAssistant.audio := Some (of_Z 10, flit 0.5); LiveAssistant.interrupted := false |}.

Definition chunk2 : LiveAssistant.Message :=
  {| LiveAssistant.audio := Some (flit 10.2, flit 0.5); LiveAssistant.interrupted := false |}.

Definition stop : LiveAssistant.Message :=
  {| LiveAssistant.audio := None; LiveAssistant.interrupted := true |}.

Definition played1 : LiveAssistant.Chunk :=
  {| LiveAssistant.currentTime := of_Z 10; LiveAssistant.start := of_Z 10;
     LiveAssistant.finish := flit 10.5 |}.

Definition played2 : LiveAssistant.Chunk :=
  {| LiveAssistant.currentTime := flit 10.2; LiveAssistant.start := flit 10.5;
     LiveAssistant.finish := of_Z 11 |}.

(** A parser that rejects every text. *)
Definition no_parse (text : string) : option (Listing float) := None.

(** 5.5, to print. *)
Definition five_and_a_half : float := flit 5.5.

(** Scenario A with a hot tub that costs 150 a month. *)
Definition hotTub150 : Property float :=
  @scenario float (Binary64.ops pow_iter) 450000 20 6.8 30 (Some (of_Z 150)).
End Inputs.

(** * What the engine computes, whatever the numbers are *)

Section EngineFacts.
Context {num : Type} {ops : NumberOps num}.
Local Open Scope num_scope.

Lemma or_else_falsy (v : option num) (d : num) :
  falsy v = true -> or_else v d = d.
Proof.
  destruct v as [x|]; simpl; [|reflexivity].
  destruct (truthy x); [discriminate | reflexivity].
Qed.

Lemma or_else_same (d : num) : or_else (Some d) d = d.
Proof. simpl. destruct (truthy d); reflexivity. Qed.

(** The result, field by field, in terms of the locals. *)
Lemma monthlyMortgage_eq (p : Property num) :
  monthlyMortgage (calculateMetrics p) =
  if monthlyRate p >? #0 then
    (loanAmount p * monthlyRate p * Math_pow (#1 + monthlyRate p) (numberOfPayments p)) /
    (Math_pow (#1 + monthlyRate p) (numberOfPayments p) - #1)
  else loanAmount p / numberOfPayments p.
Proof. reflexivity. Qed.

Lemma monthlyIncome_eq (p : Property num) :
  monthlyIncome (calculateMetrics p) =
  (nightlyRate p * #365 * (occupancyRate p / #100)) / #12.
Proof. reflexivity. Qed.

Lemma monthlyExpenses_eq (p : Property num) :
  monthlyExpenses (calculateMetrics p) =
  managementFee p (monthlyIncome (calculateMetrics p)) +
  propertyTax p / #12 + insurance p / #12 + snowRemoval p +
  or_else (hotTubMaintenance p) #0 +
  utilities p + maintenance p + hoa p + otherExpenses p.
Proof. reflexivity. Qed.

Lemma cashFlow_eq (p : Property num) :
  let r := calculateMetrics p in
  cashFlow r = monthlyIncome r - monthlyExpenses r - monthlyMortgage r.
Proof. reflexivity. Qed.

Lemma totalInvestment_eq (p : Property num) :
  totalInvestment (calculateMetrics p) = downPayment p + price p * #0.03.
Proof. reflexivity. Qed.

Lemma cashOnCashReturn_eq (p : Property num) :
  let r := calculateMetrics p in
  cashOnCashReturn r =
  if totalInvestment r >? #0
  then (cashFlow r * #12 / totalInvestment r) * #100
  else #0.
Proof. reflexivity. Qed.

Lemma capRate_eq (p : Property num) :
  let r := calculateMetrics p in
  capRate r = ((monthlyIncome r - monthlyExpenses r) * #12 / price p) * #100.
Proof. reflexivity. Qed.

(** The field [hotTubMaintenance] reaches the result through [|| 0] only. *)
Lemma calculateMetrics_hotTub (p : Property num) (v : option num) :
  or_else v #0 = or_else (hotTubMaintenance p) #0 ->
  calculateMetrics (with_hotTubMaintenance p v) = calculateMetrics p.
Proof.
  intros Hv. unfold calculateMetrics. cbn [with_hotTubMaintenance price
    downPaymentPercent interestRate loanTermYears nightlyRate occupancyRate
    propertyTax insurance managementFeePercent snowRemoval hotTubMaintenance
    utilities maintenance hoa otherExpenses].
  rewrite Hv. reflexivity.
Qed.

(** C1. When [monthlyRate = interestRate/100/12 > 0], the mortgage
    payment is the annuity formula
    [loanAmount * r * (1+r)^n / ((1+r)^n - 1)] with
    [loanAmount = price - price * (downPaymentPercent/100)],
    [r = interestRate/100/12] and [n = loanTermYears * 12]. *)
Theorem annuity_when_rate_positive (p : Property num) :
  let loan := price p - price p * (downPaymentPercent p / #100) in
  let r := interestRate p / #100 / #12 in
  let n := loanTermYears p * #12 in
  (r >? #0) = true ->
  monthlyMortgage (calculateMetrics p) =
  (loan * r * Math_pow (#1 + r) n) / (Math_pow (#1 + r) n - #1).
Proof.
  intros loan r n Hr. rewrite monthlyMortgage_eq.
  change (monthlyRate p) with r. rewrite Hr. reflexivity.
Qed.

(** C4. The monthly expenses are the management fee on the monthly
    income, a twelfth of the annual tax and of the annual insurance, and
    the monthly amounts as they are.  The hot tub maintenance is added
    as it is when the field holds a number that [||] keeps, and counts
    for 0 when the field is missing or holds a number that [||] skips.
    No input of the mortgage (price, down payment, rate, term) reaches
    the expenses. *)
Theorem monthlyExpenses_formula (p : Property num) :
  let r := calculateMetrics p in
  (forall x : num, hotTubMaintenance p = Some x -> truthy x = true ->
   monthlyExpenses r =
     monthlyIncome r * (managementFeePercent p / #100) +
     propertyTax p / #12 + insurance p / #12 + snowRemoval p +
     x +
     utilities p + maintenance p + hoa p + otherExpenses p)
  /\ (hotTubMaintenance p = None \/
      (exists x : num, hotTubMaintenance p = Some x /\ truthy x = false) ->
      monthlyExpenses r =
        monthlyIncome r * (managementFeePercent p / #100) +
        propertyTax p / #12 + insurance p / #12 + snowRemoval p +
        #0 +
        utilities p + maintenance p + hoa p + otherExpenses p)
  /\ forall price' down' rate' term' : num,
      monthlyExpenses (calculateMetrics (with_financing p price' down' rate' term')) =
      monthlyExpenses r.
Proof.
  intros r. unfold r. split; [|split].
  - intros x Hx Ht. rewrite monthlyExpenses_eq, Hx. unfold managementFee.
    cbn [or_else]. rewrite Ht. reflexivity.
  - intros [Hn|(x & Hx & Ht)]; rewrite monthlyExpenses_eq; unfold managementFee.
    + rewrite Hn. reflexivity.
    + rewrite Hx. cbn [or_else]. rewrite Ht. reflexivity.
  - intros price' down' rate' term'. reflexivity.
Qed.
End EngineFacts.

(** * Binary64: signs and special values *)

Section Rounding.
(** Shifting a natural number to the right keeps it natural, so
    [binary_round_aux] never takes its NaN branch on one. *)
Lemma shr_1_nonneg (mrs : shr_record) :
  (0 <= shr_m mrs)%Z -> (0 <= shr_m (shr_1 mrs))%Z.
Proof.
  destruct mrs as [m r s]. simpl.
  destruct m as [|[q|q|]|[q|q|]]; simpl; lia.
Qed.

Lemma iter_pos_shr_1_nonneg (n : positive) : forall mrs,
  (0 <= shr_m mrs)%Z -> (0 <= shr_m (iter_pos shr_1 n mrs))%Z.
Proof.
  induction n as [n IH|n IH|]; intros mrs H; simpl.
  - apply IH, IH, shr_1_nonneg, H.
  - apply IH, IH, H.
  - apply shr_1_nonneg, H.
Qed.

Lemma shr_nonneg (mrs : shr_record) (e n : Z) :
  (0 <= shr_m mrs)%Z -> (0 <= shr_m (fst (shr mrs e n)))%Z.
Proof.
  intros H. destruct n; simpl; auto using iter_pos_shr_1_nonneg.
Qed.

Lemma shr_record_of_loc_m (m : Z) (l : location) :
  shr_m (shr_record_of_loc m l) = m.
Proof. destruct l as [|[]]; reflexivity. Qed.

Lemma shr_fexp_nonneg (m e : Z) (l : location) :
  (0 <= m)%Z -> (0 <= shr_m (fst (shr_fexp prec emax m e l)))%Z.
Proof.
  intros H. unfold shr_fexp. apply shr_nonneg.
  rewrite shr_record_of_loc_m. exact H.
Qed.

Lemma round_nearest_even_nonneg (m : Z) (l : location) :
  (0 <= m)%Z -> (0 <= round_nearest_even m l)%Z.
Proof.
  intros H. destruct l as [|[]]; simpl; try lia. destruct (Z.even m); lia.
Qed.

Lemma binary_round_aux_rounded (s : bool) (m e : Z) (l : location) :
  (0 <= m)%Z -> rounded s (binary_round_aux prec emax s m e l).
Proof.
  intros H. unfold binary_round_aux.
  pose proof (shr_fexp_nonneg e l H) as H1.
  destruct (shr_fexp prec emax m e l) as [mrs' e']. simpl in H1.
  pose proof (round_nearest_even_nonneg (loc_of_shr_record mrs') H1) as H2.
  pose proof (shr_fexp_nonneg e' loc_Exact H2) as H3.
  destruct (shr_fexp prec emax _ e' loc_Exact) as [mrs'' e'']. simpl in H3.
  destruct (shr_m mrs'') as [|q|q].
  - constructor.
  - destruct (Z.leb e'' (emax - prec)); constructor.
  - lia.
Qed.

Lemma SFdiv_core_binary_nonneg (mx : positive) (ex : Z) (my : positive) (ey : Z) :
  (0 <= fst (fst (SFdiv_core_binary prec emax (Zpos mx) ex (Zpos my) ey)))%Z.
Proof.
  unfold SFdiv_core_binary.
  set (s := (ex - ey - _)%Z).
  set (m' := match s with
             | Zpos _ => Z.shiftl (Zpos mx) s
             | Z0 => Zpos mx
             | Zneg _ => 0%Z
             end).
  assert (Hm : (0 <= m')%Z).
  { unfold m'. destruct s; try lia. apply Z.shiftl_nonneg. lia. }
  pose proof (Z_div_mod m' (Zpos my) eq_refl) as Hd.
  destruct (Z.div_eucl m' (Zpos my)) as [q r]. simpl.
  destruct Hd as [Hq Hr]. nia.
Qed.

(** A quotient of finite numbers is a zero, a finite number or an
    infinity with the sign of the quotient. *)
Lemma fdiv_finite_rounded sx mx ex sy my ey :
  rounded (xorb sx sy) (fdiv (S754_finite sx mx ex) (S754_finite sy my ey)).
Proof.
  unfold fdiv, SFdiv.
  pose proof (SFdiv_core_binary_nonneg mx ex my ey) as H.
  destruct (SFdiv_core_binary prec emax (Zpos mx) ex (Zpos my) ey) as [[mz ez] lz].
  simpl in H. apply binary_round_aux_rounded, H.
Qed.

Lemma fdiv_rounded s x sy my ey :
  rounded s x -> rounded (xorb s sy) (fdiv x (S754_finite sy my ey)).
Proof.
  intros [|m e|]; [constructor | apply fdiv_finite_rounded | constructor].
Qed.

Lemma flt_zero_rounded (x : float) : flt x pzero = true -> rounded true x.
Proof.
  destruct x as [s|[]| |[] m e]; cbn; try discriminate; intros _; constructor.
Qed.

Lemma rounded_true_le (x : float) :
  rounded true x -> fle x pzero = true /\ fgt x pzero = false.
Proof. intros [|m e|]; split; reflexivity. Qed.

Lemma fgt_zero_false (x : float) :
  is_zero x = true \/ flt x pzero = true -> fgt x pzero = false.
Proof.
  intros [H|H].
  - destruct x; try discriminate; reflexivity.
  - apply rounded_true_le, flt_zero_rounded, H.
Qed.

(** The literals of the source, as binary64 numbers. *)
Lemma flit_0 : flit 0 = pzero.
Proof. vm_compute. reflexivity. Qed.

Lemma flit_12 : flit 12 = S754_finite false 6755399441055744 (-49).
Proof. vm_compute. reflexivity. Qed.

Lemma flit_100 : flit 100 = S754_finite false 7036874417766400 (-46).
Proof. vm_compute. reflexivity. Qed.

(** 0.03 is 0x3F9EB851EB851EB8. *)
Lemma flit_0_03 : flit 0.03 = S754_finite false 0x1EB851EB851EB8 (-58).
Proof. vm_compute. reflexivity. Qed.

(** Division by a zero, and NaN through the operations. *)
Lemma fdiv_zero_r (x : float) (s : bool) : is_finite (fdiv x (S754_zero s)) = false.
Proof. destruct x as [sx|sx| |sx m e]; reflexivity. Qed.

Lemma fmul_100_not_finite (x : float) :
  is_finite x = false -> is_finite (fmul x (flit 100)) = false.
Proof. rewrite flit_100. destruct x; try discriminate; reflexivity. Qed.

Lemma fadd_nan_l (x : float) : fadd NaN x = NaN.
Proof. reflexivity. Qed.

Lemma fadd_nan_r (x : float) : fadd x NaN = NaN.
Proof. destruct x; reflexivity. Qed.

Lemma fsub_nan_r (x : float) : fsub x NaN = NaN.
Proof. destruct x; reflexivity. Qed.

Lemma fmul_nan_r (x : float) : fmul x NaN = NaN.
Proof. destruct x; reflexivity. Qed.

Lemma fdiv_nan_l (x : float) : fdiv NaN x = NaN.
Proof. reflexivity. Qed.

(** Once the mortgage is an infinity or NaN, adding it back to the cash
    flow gives NaN. *)
Lemma recombine_not_finite (x m e : float) :
  is_finite m = false -> fadd (fadd (fsub x m) m) e = NaN.
Proof.
  destruct m as [|s| |]; try discriminate; intros _.
  - destruct x as [sx|sx| |sx mx ex]; destruct s; try destruct sx; reflexivity.
  - rewrite fsub_nan_r. reflexivity.
Qed.
End Rounding.

(** * The engine on binary64 numbers *)

Section Binary64Reading.
Variable pow : float -> float -> float.
Local Hint Extern 0 (NumberOps float) =>
  exact (Binary64.ops pow) : typeclass_instances.
Local Open Scope num_scope.

Lemma gt_lit_0 (x : float) : (x >? #0) = fgt x pzero.
Proof. reflexivity. Qed.

Lemma div_100_12_rounded (s : bool) (x : float) :
  rounded s x -> rounded s (x / #100 / #12).
Proof.
  intros H. change (rounded s (fdiv (fdiv x (flit 100)) (flit 12))).
  rewrite flit_100, flit_12.
  rewrite <- (xorb_false_r s). apply fdiv_rounded.
  rewrite <- (xorb_false_r s). apply fdiv_rounded. exact H.
Qed.

Lemma monthlyRate_zero (p : Property float) :
  is_zero (interestRate p) = true -> (monthlyRate p >? #0) = false.
Proof.
  intros H. rewrite gt_lit_0. unfold monthlyRate.
  destruct (interestRate p) as [s| | |]; try discriminate.
  destruct s; reflexivity.
Qed.

Lemma absent_zero_or_nan_falsy (v : option float) :
  absent_zero_or_nan v = true -> falsy v = true.
Proof.
  destruct v as [x|]; [|reflexivity]. destruct x; try discriminate; reflexivity.
Qed.

(** C2. With [interestRate = 0] (either zero) the mortgage payment is
    [loanAmount / (loanTermYears * 12)]; for a term of 10 years, a price
    of 120000 and a down payment of 100 percent the loan amount and the
    payment are both 0. *)
Theorem zero_interest_straight_line (p : Property float) :
  is_zero (interestRate p) = true ->
  let r := calculateMetrics p in
  monthlyMortgage r = loanAmount p / (loanTermYears p * #12)
  /\ (loanTermYears p = #10 -> price p = #120000 -> downPaymentPercent p = #100 ->
      loanAmount p = pzero /\ monthlyMortgage r = pzero).
Proof.
  intros Hz r.
  assert (Hm : monthlyMortgage r = loanAmount p / (loanTermYears p * #12)).
  { unfold r. rewrite monthlyMortgage_eq, (monthlyRate_zero p Hz). reflexivity. }
  split; [exact Hm|].
  intros Ht Hp Hd.
  assert (Hl : loanAmount p = pzero).
  { unfold loanAmount, downPayment. rewrite Hp, Hd. vm_compute. reflexivity. }
  split; [exact Hl|]. rewrite Hm, Hl, Ht. vm_compute. reflexivity.
Qed.

(** C3. The monthly income is
    [nightlyRate * 365 * (occupancyRate/100) / 12]; at 200 a night and
    60 percent occupancy it is 3650, to the last bit. *)
Theorem monthlyIncome_formula (p : Property float) :
  let r := calculateMetrics p in
  monthlyIncome r = (nightlyRate p * #365 * (occupancyRate p / #100)) / #12
  /\ (nightlyRate p = #200 -> occupancyRate p = #60 -> monthlyIncome r = #3650).
Proof.
  intros r. split; [exact (monthlyIncome_eq p)|]. intros Hn Ho.
  unfold r. rewrite monthlyIncome_eq, Hn, Ho. vm_compute. reflexivity.
Qed.

(** C6. The total investment is the down payment plus 3 percent of the
    price; the cash-on-cash return is
    [(cashFlow * 12 / totalInvestment) * 100] when the total investment
    is positive and +0 when it is a zero or negative; with a zero price
    and a zero down payment percentage the total investment is a zero
    and the return is +0. *)
Theorem cashOnCash_guard (p : Property float) :
  let r := calculateMetrics p in
  totalInvestment r = price p * (downPaymentPercent p / #100) + price p * #0.03
  /\ ((totalInvestment r >? #0) = true ->
      cashOnCashReturn r = (cashFlow r * #12 / totalInvestment r) * #100)
  /\ (is_zero (totalInvestment r) = true \/ flt (totalInvestment r) #0 = true ->
      cashOnCashReturn r = pzero)
  /\ (is_zero (price p) = true -> is_zero (downPaymentPercent p) = true ->
      is_zero (totalInvestment r) = true /\ cashOnCashReturn r = pzero).
Proof.
  intros r.
  assert (Hguard : is_zero (totalInvestment r) = true \/
                   flt (totalInvestment r) #0 = true ->
                   cashOnCashReturn r = pzero).
  { intros H. unfold r. rewrite cashOnCashReturn_eq. cbv zeta. fold r.
    rewrite gt_lit_0, (fgt_zero_false _ H). reflexivity. }
  split; [exact (totalInvestment_eq p)|]. split; [|split; [exact Hguard|]].
  - intros H. unfold r. rewrite cashOnCashReturn_eq. cbv zeta. fold r.
    rewrite H. reflexivity.
  - intros Hp Hd.
    assert (Hz : is_zero (totalInvestment r) = true).
    { unfold r. rewrite totalInvestment_eq. unfold downPayment.
      destruct (price p) as [sp| | |]; try discriminate.
      destruct (downPaymentPercent p) as [sd| | |]; try discriminate.
      destruct sp, sd; vm_compute; reflexivity. }
    split; [exact Hz|]. apply Hguard. left. exact Hz.
Qed.

(** C7. [calculateMetrics] has a result on every [Property], whatever
    its numbers; the cap rate is
    [((monthlyIncome - monthlyExpenses) * 12 / price) * 100] with no
    guard, and for a zero price it is an infinity or NaN. *)
Theorem capRate_unguarded (p : Property float) :
  let r := calculateMetrics p in
  (exists r', calculateMetrics p = r')
  /\ capRate r = ((monthlyIncome r - monthlyExpenses r) * #12 / price p) * #100
  /\ (is_zero (price p) = true -> is_finite (capRate r) = false).
Proof.
  intros r. split; [exists r; reflexivity|]. split; [exact (capRate_eq p)|].
  intros Hp. unfold r. rewrite capRate_eq. cbv zeta.
  apply fmul_100_not_finite.
  destruct (price p) as [s| | |]; try discriminate. apply fdiv_zero_r.
Qed.

(** C9. With [interestRate < 0] the monthly rate is [<= 0], the test
    [monthlyRate > 0] fails and the mortgage payment is the straight
    line [loanAmount / (loanTermYears * 12)]. *)
Theorem negative_rate_straight_line (p : Property float) :
  flt (interestRate p) #0 = true ->
  fle (monthlyRate p) #0 = true
  /\ (monthlyRate p >? #0) = false
  /\ monthlyMortgage (calculateMetrics p) = loanAmount p / (loanTermYears p * #12).
Proof.
  intros H. apply flt_zero_rounded, div_100_12_rounded in H.
  fold (monthlyRate p) in H.
  destruct (rounded_true_le H) as [Hle Hgt].
  split; [exact Hle|]. split; [exact Hgt|].
  rewrite monthlyMortgage_eq, gt_lit_0, Hgt. reflexivity.
Qed.

(** C10. A [hotTubMaintenance] that is missing, a zero or NaN gives the
    result of [hotTubMaintenance = 0]; NaN in any other expense field
    makes the monthly expenses NaN. *)
Theorem hotTub_falsy_is_zero (p : Property float) :
  (absent_zero_or_nan (hotTubMaintenance p) = true ->
   calculateMetrics p = calculateMetrics (with_hotTubMaintenance p (Some #0)))
  /\ (propertyTax p = NaN \/ insurance p = NaN \/ managementFeePercent p = NaN \/
      snowRemoval p = NaN \/ utilities p = NaN \/ maintenance p = NaN \/
      hoa p = NaN \/ otherExpenses p = NaN ->
      monthlyExpenses (calculateMetrics p) = NaN).
Proof.
  split.
  - intros H. symmetry. apply calculateMetrics_hotTub.
    rewrite or_else_same. symmetry.
    apply or_else_falsy, absent_zero_or_nan_falsy, H.
  - intros H. rewrite monthlyExpenses_eq. unfold managementFee.
    change (@add float _) with fadd. change (@mul float _) with fmul.
    change (@div float _) with fdiv.
    repeat destruct H as [H|H]; rewrite H;
      rewrite ?fdiv_nan_l, ?fmul_nan_r;
      repeat (rewrite ?fadd_nan_l, ?fadd_nan_r); reflexivity.
Qed.

(** In binary64 the accounting identity is at best approximate, and it
    is lost when the mortgage payment is not finite. *)
Remark recombined_not_finite (p : Property float) :
  let r := calculateMetrics p in
  is_finite (monthlyMortgage r) = false ->
  cashFlow r + monthlyMortgage r + monthlyExpenses r = NaN.
Proof.
  intros r H. unfold r. rewrite cashFlow_eq. cbv zeta. fold r.
  apply recombine_not_finite, H.
Qed.
End Binary64Reading.

(** * Binary64: values and order

    What the operations return is compared through the rational value of
    a mantissa and an exponent. *)

Unset Implicit Arguments.

Section Binary64Order.
Local Open Scope Q_scope.

(** ** Powers of two and values *)

Lemma pow2_pos (e : Z) : 0 < pow2 e.
Proof. apply Qpower_0_lt. reflexivity. Qed.

Lemma pow2_add (a b : Z) : pow2 (a + b) == pow2 a * pow2 b.
Proof. apply Qpower_plus. discriminate. Qed.

Lemma pow2_le (a b : Z) : (a <= b)%Z -> pow2 a <= pow2 b.
Proof. intros H. apply Qpower_le_compat_l; [exact H | discriminate]. Qed.

Lemma pow2_lt (a b : Z) : (a < b)%Z -> pow2 a < pow2 b.
Proof. intros H. apply Qpower_lt_compat_l; [exact H | reflexivity]. Qed.

Lemma pow2_lt_inv (a b : Z) : pow2 a < pow2 b -> (a < b)%Z.
Proof.
  intros H. destruct (Z.lt_ge_cases a b) as [Hlt|Hge]; [exact Hlt|].
  apply pow2_le in Hge. lra.
Qed.

Lemma pow2_Z (k : Z) : (0 <= k)%Z -> pow2 k == inject_Z (2 ^ k).
Proof. intros H. unfold pow2. rewrite Zpower_Qpower by exact H. reflexivity. Qed.

Lemma val_shift (m e k : Z) : (0 <= k)%Z -> val (m * 2 ^ k) e == val m (e + k).
Proof.
  intros H. unfold val. rewrite pow2_add, (pow2_Z k H), inject_Z_mult. ring.
Qed.

Lemma val_le_mono (m n e : Z) : (m <= n)%Z -> val m e <= val n e.
Proof.
  intros H. unfold val. apply Qmult_le_compat_r.
  - rewrite <- Zle_Qle. exact H.
  - apply Qlt_le_weak, pow2_pos.
Qed.

Lemma val_lt_mono (m n e : Z) : (m < n)%Z -> val m e < val n e.
Proof.
  intros H. unfold val. apply Qmult_lt_compat_r.
  - apply pow2_pos.
  - rewrite <- Zlt_Qlt. exact H.
Qed.

Lemma val_lt_inv (m n e : Z) : val m e < val n e -> (m < n)%Z.
Proof.
  intros H. destruct (Z.lt_ge_cases m n) as [Hlt|Hge]; [exact Hlt|].
  apply (val_le_mono n m e) in Hge. lra.
Qed.

Lemma val_le_inv (m n e : Z) : val m e <= val n e -> (m <= n)%Z.
Proof.
  intros H. destruct (Z.le_gt_cases m n) as [Hle|Hgt]; [exact Hle|].
  apply (val_lt_mono n m e) in Hgt. lra.
Qed.

Lemma digits2_pos_bounds (m : positive) :
  (2 ^ (Zpos (digits2_pos m) - 1) <= Zpos m < 2 ^ Zpos (digits2_pos m))%Z.
Proof.
  induction m as [m IH|m IH|]; cbn [digits2_pos].
  - rewrite Pos2Z.inj_succ.
    replace (Z.succ (Zpos (digits2_pos m)) - 1)%Z with (Z.succ (Zpos (digits2_pos m) - 1)) by lia.
    rewrite !Z.pow_succ_r by lia. lia.
  - rewrite Pos2Z.inj_succ.
    replace (Z.succ (Zpos (digits2_pos m)) - 1)%Z with (Z.succ (Zpos (digits2_pos m) - 1)) by lia.
    rewrite !Z.pow_succ_r by lia. lia.
  - simpl. lia.
Qed.

Lemma Zdigits2_nonneg (m : Z) : (0 <= Zdigits2 m)%Z.
Proof. destruct m; simpl; lia. Qed.

Lemma Zdigits2_upper (m : Z) : (0 <= m)%Z -> (m < 2 ^ Zdigits2 m)%Z.
Proof.
  intros H. destruct m as [|q|q]; simpl; try lia. apply digits2_pos_bounds.
Qed.

Lemma val_lower (m : positive) (e : Z) :
  pow2 (Zpos (digits2_pos m) - 1 + e) <= val (Zpos m) e.
Proof.
  rewrite pow2_add. unfold val. apply Qmult_le_compat_r.
  - rewrite pow2_Z by lia. rewrite <- Zle_Qle. apply digits2_pos_bounds.
  - apply Qlt_le_weak, pow2_pos.
Qed.

Lemma val_upper (m : positive) (e : Z) :
  val (Zpos m) e < pow2 (Zpos (digits2_pos m) + e).
Proof.
  rewrite pow2_add. unfold val. apply Qmult_lt_compat_r.
  - apply pow2_pos.
  - rewrite pow2_Z by lia. rewrite <- Zlt_Qlt. apply digits2_pos_bounds.
Qed.

(** Magnitudes follow the order. *)
Lemma val_le_digits (m mP : positive) (e eP : Z) :
  val (Zpos m) e <= val (Zpos mP) eP ->
  (Zpos (digits2_pos m) + e <= Zpos (digits2_pos mP) + eP)%Z.
Proof.
  intros H. pose proof (val_lower m e) as Hl. pose proof (val_upper mP eP) as Hu.
  assert (Hlt : pow2 (Zpos (digits2_pos m) - 1 + e) < pow2 (Zpos (digits2_pos mP) + eP)) by lra.
  apply pow2_lt_inv in Hlt. lia.
Qed.

Lemma fexp_mono (a b : Z) : (a <= b)%Z -> (fexp prec emax a <= fexp prec emax b)%Z.
Proof. unfold fexp. lia. Qed.

Lemma fexp_ge_emin (a : Z) : (emin prec emax <= fexp prec emax a)%Z.
Proof. unfold fexp. lia. Qed.

(** ** Shifting to the right, against an upper bound *)

Lemma val_double (m e : Z) : val m (e + 1) == val (2 * m) e.
Proof. unfold val. rewrite pow2_add, inject_Z_mult. change (pow2 1) with 2. ring. Qed.

Lemma val_zero (e : Z) : val 0 e == 0.
Proof. unfold val. ring. Qed.

Lemma below_shr_1 (B : Q) (mrs : shr_record) (e : Z) :
  below B mrs e -> below B (shr_1 mrs) (e + 1).
Proof.
  destruct mrs as [m r s]. unfold below. cbn [shr_m shr_r shr_s].
  intros (Hm & Hle & Hlt).
  destruct m as [|[q|q|]|q]; cbn [shr_1 shr_m shr_r shr_s]; try lia.
  - rewrite val_zero in *. split; [lia|]. split; [exact Hle|].
    intros H. rewrite orb_false_l in H. apply Hlt, H.
  - pose proof (val_lt_mono (2 * Zpos q) (Zpos q~1) e ltac:(lia)) as H1.
    rewrite <- val_double in H1.
    split; [lia|]. split; [lra|]. intros _. lra.
  - assert (H1 : val (Zpos q) (e + 1) == val (Zpos q~0) e) by (rewrite val_double; reflexivity).
    split; [lia|]. rewrite H1. split; [exact Hle|]. intros H. rewrite orb_false_l in H.
    apply Hlt, H.
  - pose proof (val_lt_mono 0 1 e ltac:(lia)) as H1.
    rewrite val_zero in *.
    split; [lia|]. split; [lra|]. intros _. lra.
Qed.

Lemma below_iter_shr_1 (B : Q) (n : positive) : forall mrs e,
  below B mrs e -> below B (iter_pos shr_1 n mrs) (e + Zpos n).
Proof.
  induction n as [n IH|n IH|]; intros mrs e H; cbn [iter_pos].
  - replace (e + Zpos n~1)%Z with (e + 1 + Zpos n + Zpos n)%Z by lia.
    apply IH, IH, below_shr_1, H.
  - replace (e + Zpos n~0)%Z with (e + Zpos n + Zpos n)%Z by lia.
    apply IH, IH, H.
  - apply below_shr_1, H.
Qed.

Lemma below_shr (B : Q) (mrs : shr_record) (e n : Z) :
  below B mrs e -> below B (fst (shr mrs e n)) (snd (shr mrs e n)).
Proof.
  intros H. destruct n; cbn [shr fst snd]; try exact H.
  apply below_iter_shr_1, H.
Qed.

Lemma snd_shr (mrs : shr_record) (e n : Z) :
  snd (shr mrs e n) = (e + Z.max 0 n)%Z.
Proof. destruct n; cbn [shr snd]; lia. Qed.

Lemma below_of_loc (B : Q) (m e : Z) (l : location) :
  (0 <= m)%Z -> val m e <= B -> (l <> loc_Exact -> val m e < B) ->
  below B (shr_record_of_loc m l) e.
Proof.
  intros Hm Hle Hlt. unfold below. rewrite shr_record_of_loc_m.
  split; [exact Hm|]. split; [exact Hle|].
  intros H. apply Hlt. intros ->. discriminate H.
Qed.

Lemma exact_of_loc (m : Z) (l : location) :
  shr_r (shr_record_of_loc m l) || shr_s (shr_record_of_loc m l) = true -> l <> loc_Exact.
Proof. intros H ->. discriminate H. Qed.

(** A bound that lies on the grid of [e] is reached from below in whole
    steps. *)
Lemma val_succ_le (m e : Z) (mP : positive) (eP : Z) :
  (e <= eP)%Z -> val m e < val (Zpos mP) eP -> val (m + 1) e <= val (Zpos mP) eP.
Proof.
  intros He H.
  assert (HP : val (Zpos mP) eP == val (Zpos mP * 2 ^ (eP - e)) e).
  { rewrite val_shift by lia. replace (e + (eP - e))%Z with eP by lia. reflexivity. }
  rewrite HP in *. apply val_lt_inv in H. apply val_le_mono. lia.
Qed.

Lemma round_nearest_even_cases (m : Z) (l : location) :
  round_nearest_even m l = m \/
  (l <> loc_Exact /\ round_nearest_even m l = (m + 1)%Z).
Proof.
  destruct l as [|[]]; cbn; auto.
  - destruct (Z.even m); [left; reflexivity | right; split; [discriminate | reflexivity]].
  - right. split; [discriminate | reflexivity].
Qed.

Lemma loc_of_shr_record_inexact (mrs : shr_record) :
  loc_of_shr_record mrs <> loc_Exact -> shr_r mrs || shr_s mrs = true.
Proof. destruct mrs as [m [] []]; cbn; intros H; try reflexivity. congruence. Qed.

(** ** Rounding does not pass a number of the format *)

Lemma bounded_canonical (mP : positive) (eP : Z) :
  bounded prec emax mP eP = true ->
  fexp prec emax (Zpos (digits2_pos mP) + eP) = eP /\ (eP <= emax - prec)%Z.
Proof.
  unfold bounded, canonical_mantissa. intros H.
  apply andb_true_iff in H. destruct H as [H1 H2].
  apply Z.eqb_eq in H1. apply Z.leb_le in H2. split; assumption.
Qed.

Lemma fexp_below_bound (m e : Z) (mP : positive) (eP : Z) :
  bounded prec emax mP eP = true ->
  (0 <= m)%Z -> val m e <= val (Zpos mP) eP ->
  (e <= fexp prec emax (Zdigits2 m + e))%Z ->
  (fexp prec emax (Zdigits2 m + e) <= eP)%Z.
Proof.
  intros Hb Hm Hle He. destruct (bounded_canonical _ _ Hb) as [Hc _].
  destruct m as [|q|q]; try lia.
  - cbn [Zdigits2] in *. rewrite Z.add_0_l in *.
    pose proof (fexp_ge_emin (Zpos (digits2_pos mP) + eP)) as H1.
    unfold fexp in *. lia.
  - cbn [Zdigits2]. rewrite <- Hc. apply fexp_mono, val_le_digits, Hle.
Qed.

Lemma shr_fexp_spec (B : Q) (m e : Z) (l : location) :
  (0 <= m)%Z -> val m e <= B -> (l <> loc_Exact -> val m e < B) ->
  below B (fst (shr_fexp prec emax m e l)) (snd (shr_fexp prec emax m e l)) /\
  snd (shr_fexp prec emax m e l) =
    (e + Z.max 0 (fexp prec emax (Zdigits2 m + e) - e))%Z /\
  ((fexp prec emax (Zdigits2 m + e) - e <= 0)%Z ->
   fst (shr_fexp prec emax m e l) = shr_record_of_loc m l).
Proof.
  intros Hm Hle Hlt. unfold shr_fexp. split; [|split].
  - apply below_shr, below_of_loc; assumption.
  - apply snd_shr.
  - intros Hk. destruct (fexp prec emax (Zdigits2 m + e) - e)%Z; try lia; reflexivity.
Qed.

Lemma binary_round_aux_at_most (m e : Z) (l : location) (mP : positive) (eP : Z) :
  bounded prec emax mP eP = true ->
  (0 <= m)%Z ->
  val m e <= val (Zpos mP) eP ->
  (l <> loc_Exact -> val m e < val (Zpos mP) eP) ->
  (l = loc_Exact /\ (e <= emax - prec)%Z) \/ (e <= fexp prec emax (Zdigits2 m + e))%Z ->
  at_most (val (Zpos mP) eP) (binary_round_aux prec emax false m e l).
Proof.
  intros Hb Hm Hle Hlt Hside.
  destruct (bounded_canonical _ _ Hb) as [Hc HeP].
  set (B := val (Zpos mP) eP) in *.
  unfold binary_round_aux.
  destruct (shr_fexp_spec B m e l Hm Hle Hlt) as (Hbelow & He' & Hsame).
  destruct (shr_fexp prec emax m e l) as [mrs' e']. cbn [fst snd] in *.
  destruct Hbelow as (Hm1 & Hle1 & Hlt1).
  (* the exponent after the first shift *)
  assert (F1 : shr_r mrs' || shr_s mrs' = true -> (e' <= eP)%Z).
  { intros Hin. destruct (Z.le_gt_cases e (fexp prec emax (Zdigits2 m + e))) as [Hk|Hk].
    - pose proof (fexp_below_bound _ _ _ _ Hb Hm Hle Hk). lia.
    - destruct Hside as [[-> _]|Hs]; [|lia].
      rewrite Hsame in Hin by lia. discriminate Hin. }
  assert (F2 : (e' <= emax - prec)%Z).
  { destruct (Z.le_gt_cases e (fexp prec emax (Zdigits2 m + e))) as [Hk|Hk].
    - pose proof (fexp_below_bound _ _ _ _ Hb Hm Hle Hk). lia.
    - destruct Hside as [[_ Hs]|Hs]; lia. }
  (* rounding to nearest *)
  set (m2 := round_nearest_even (shr_m mrs') (loc_of_shr_record mrs')).
  assert (Hm2 : (0 <= m2)%Z) by (apply round_nearest_even_nonneg, Hm1).
  assert (Hle2 : val m2 e' <= B).
  { unfold m2. destruct (round_nearest_even_cases (shr_m mrs') (loc_of_shr_record mrs'))
      as [->|[Hin ->]]; [exact Hle1|].
    apply loc_of_shr_record_inexact in Hin.
    apply val_succ_le; [apply F1, Hin | apply Hlt1, Hin]. }
  (* the second shift *)
  assert (Hex : loc_Exact <> loc_Exact -> val m2 e' < B) by congruence.
  destruct (shr_fexp_spec B m2 e' loc_Exact Hm2 Hle2 Hex) as (Hbelow3 & He'' & _).
  destruct (shr_fexp prec emax m2 e' loc_Exact) as [mrs'' e'']. cbn [fst snd] in *.
  destruct Hbelow3 as (Hm3 & Hle3 & _).
  assert (F3 : (e'' <= emax - prec)%Z).
  { destruct (Z.le_gt_cases e' (fexp prec emax (Zdigits2 m2 + e'))) as [Hk|Hk].
    - pose proof (fexp_below_bound _ _ _ _ Hb Hm2 Hle2 Hk). lia.
    - lia. }
  destruct (shr_m mrs'') as [|q|q]; cbn [at_most].
  - exact I.
  - apply Z.leb_le in F3. rewrite F3. exact Hle3.
  - lia.
Qed.

(** ** Products and quotients *)

Lemma val_mul (m n e f : Z) : val (m * n) (e + f) == val m e * val n f.
Proof. unfold val. rewrite pow2_add, inject_Z_mult. ring. Qed.

Lemma val_pos (m : positive) (e : Z) : 0 < val (Zpos m) e.
Proof.
  unfold val. apply Qmult_lt_0_compat; [|apply pow2_pos].
  change 0 with (inject_Z 0). rewrite <- Zlt_Qlt. lia.
Qed.

Lemma val_one_exp (m : positive) (e : Z) : val (Zpos m) e <= 1 -> (e <= 0)%Z.
Proof.
  intros H. destruct (Z.le_gt_cases e 0) as [Hle|Hgt]; [exact Hle|].
  pose proof (val_le_mono 1 (Zpos m) e ltac:(lia)) as H1.
  pose proof (pow2_lt 0 e Hgt) as H2.
  unfold val in H1 at 1. change (pow2 0) with 1 in H2.
  change (inject_Z 1) with 1 in H1. lra.
Qed.

(** The product with a factor of at most 1 does not exceed a number of
    the format. *)
Lemma fmul_at_most (mp : positive) (ep : Z) (mf : positive) (ef : Z) :
  bounded prec emax mp ep = true ->
  val (Zpos mf) ef <= 1 ->
  at_most (val (Zpos mp) ep)
          (fmul (S754_finite false mp ep) (S754_finite false mf ef)).
Proof.
  intros Hb Hf. unfold fmul, SFmul. cbn [xorb].
  destruct (bounded_canonical _ _ Hb) as [_ HeP].
  pose proof (val_one_exp _ _ Hf) as Hef.
  pose proof (val_pos mp ep) as Hp.
  assert (Hle : val (Zpos (mp * mf)) (ep + ef) <= val (Zpos mp) ep).
  { rewrite Pos2Z.inj_mul, val_mul. nra. }
  apply binary_round_aux_at_most.
  - exact Hb.
  - lia.
  - exact Hle.
  - congruence.
  - left. split; [reflexivity | lia].
Qed.

Lemma new_location_inexact (n r : Z) : new_location n r <> loc_Exact -> r <> 0%Z.
Proof.
  intros H ->. apply H. unfold new_location, new_location_even, new_location_odd.
  destruct (Z.even n); reflexivity.
Qed.

Lemma Zdigits2_lower (q t : Z) : (0 <= t)%Z -> (2 ^ t <= q)%Z -> (t < Zdigits2 q)%Z.
Proof.
  intros Ht Hq.
  assert (H0 : (0 < 2 ^ t)%Z) by (apply Z.pow_pos_nonneg; lia).
  pose proof (Zdigits2_upper q ltac:(lia)) as Hu.
  pose proof (Zdigits2_nonneg q) as Hn.
  apply (Z.pow_lt_mono_r_iff 2); lia.
Qed.

Lemma SFdiv_core_binary_spec (mx : positive) (ex : Z) (my : positive) (ey : Z) :
  let '(q, e', l) := SFdiv_core_binary prec emax (Zpos mx) ex (Zpos my) ey in
  (0 <= q)%Z /\
  val q e' * val (Zpos my) ey <= val (Zpos mx) ex /\
  (l <> loc_Exact -> val q e' * val (Zpos my) ey < val (Zpos mx) ex) /\
  (e' <= fexp prec emax (Zdigits2 q + e'))%Z.
Proof.
  unfold SFdiv_core_binary. cbn [Zdigits2].
  set (d1 := Zpos (digits2_pos mx)). set (d2 := Zpos (digits2_pos my)).
  set (e' := Z.min (fexp prec emax (d1 + ex - (d2 + ey))) (ex - ey)).
  set (s := (ex - ey - e')%Z).
  assert (Hs : (0 <= s)%Z) by (unfold s, e'; lia).
  set (m' := match s with
             | Zpos _ => Z.shiftl (Zpos mx) s
             | Z0 => Zpos mx
             | Zneg _ => 0%Z
             end).
  assert (Hm' : m' = (Zpos mx * 2 ^ s)%Z).
  { unfold m'. destruct s as [|k|k]; try lia.
    rewrite Z.shiftl_mul_pow2 by lia. reflexivity. }
  pose proof (Z_div_mod m' (Zpos my) eq_refl) as Hd.
  destruct (Z.div_eucl m' (Zpos my)) as [q r]. destruct Hd as [Hq Hr].
  assert (H2s : (0 < 2 ^ s)%Z) by (apply Z.pow_pos_nonneg; lia).
  assert (Hq0 : (0 <= q)%Z) by nia.
  assert (Hval : val (Zpos mx) ex == val m' (e' + ey)).
  { rewrite Hm', val_shift by exact Hs.
    replace (e' + ey + s)%Z with ex by (unfold s; lia). reflexivity. }
  assert (Hprod : val q e' * val (Zpos my) ey == val (q * Zpos my) (e' + ey)).
  { rewrite val_mul. reflexivity. }
  split; [exact Hq0|]. split; [|split].
  - rewrite Hprod, Hval. apply val_le_mono. lia.
  - intros Hl. apply new_location_inexact in Hl.
    rewrite Hprod, Hval. apply val_lt_mono. lia.
  - apply Z.le_trans with (fexp prec emax (d1 + ex - (d2 + ey))); [unfold e'; lia|].
    apply fexp_mono.
    destruct (Z.le_gt_cases (d1 - d2 + s) 0) as [Ht|Ht].
    + pose proof (Zdigits2_nonneg q). unfold s in *. lia.
    + assert (Hlow : (d1 - d2 + s - 1 < Zdigits2 q)%Z).
      { apply Zdigits2_lower; [lia|].
        pose proof (digits2_pos_bounds mx) as [Hx _].
        pose proof (digits2_pos_bounds my) as [_ Hy].
        fold d1 in Hx. fold d2 in Hy.
        assert (Hsplit : (2 ^ (d1 - 1) * 2 ^ s = 2 ^ (d1 - d2 + s - 1) * 2 ^ d2)%Z).
        { rewrite <- !Z.pow_add_r by (unfold d1, d2; lia). f_equal. lia. }
        assert (Hd2 : (0 < 2 ^ d2)%Z) by (apply Z.pow_pos_nonneg; unfold d2; lia).
        assert (Ht' : (0 < 2 ^ (d1 - d2 + s - 1))%Z) by (apply Z.pow_pos_nonneg; lia).
        nia. }
      unfold s in *. lia.
Qed.

Lemma one_bounded : bounded prec emax one_m (-52) = true.
Proof. vm_compute. reflexivity. Qed.

Lemma one_val : val (Zpos one_m) (-52) == 1.
Proof. vm_compute. reflexivity. Qed.

(** A quotient of positive numbers [x <= y] is at most 1. *)
Lemma fdiv_at_most_one (mx : positive) (ex : Z) (my : positive) (ey : Z) :
  val (Zpos mx) ex <= val (Zpos my) ey ->
  at_most 1 (fdiv (S754_finite false mx ex) (S754_finite false my ey)).
Proof.
  intros Hxy. unfold fdiv, SFdiv. cbn [xorb].
  pose proof (SFdiv_core_binary_spec mx ex my ey) as H.
  destruct (SFdiv_core_binary prec emax (Zpos mx) ex (Zpos my) ey) as [[q e'] l].
  destruct H as (Hq & Hle & Hlt & He).
  pose proof (val_pos my ey) as Hy.
  assert (H1 : at_most (val (Zpos one_m) (-52)) (binary_round_aux prec emax false q e' l)).
  { apply binary_round_aux_at_most.
    - exact one_bounded.
    - exact Hq.
    - rewrite one_val. nra.
    - intros Hl. rewrite one_val. specialize (Hlt Hl). nra.
    - right. exact He. }
  destruct (binary_round_aux prec emax false q e' l) as [[]|[]| |[] m e]; cbn [at_most] in *;
    try exact H1. rewrite one_val in H1. exact H1.
Qed.

(** ** Differences and the order *)

Lemma iter_xO_val (m d : positive) : Zpos (Pos.iter xO m d) = (Zpos m * 2 ^ Zpos d)%Z.
Proof.
  induction d as [|d IH] using Pos.peano_ind.
  - cbn. lia.
  - rewrite Pos.iter_succ, Pos2Z.inj_xO, IH, Pos2Z.inj_succ, Z.pow_succ_r by lia. lia.
Qed.

Lemma shl_align_val (m : positive) (e ez : Z) :
  (ez <= e)%Z -> val (Zpos (fst (shl_align m e ez))) ez == val (Zpos m) e.
Proof.
  intros H. unfold shl_align.
  destruct (ez - e)%Z as [|d|d] eqn:Hd; cbn [fst]; try lia.
  - replace ez with e by lia. reflexivity.
  - rewrite iter_xO_val, val_shift by lia.
    replace (ez + Zpos d)%Z with e by lia. reflexivity.
Qed.

Lemma binary_round_rounded (s : bool) (m : positive) (e : Z) :
  rounded s (binary_round prec emax s m e).
Proof.
  unfold binary_round.
  destruct (shl_align m e _) as [mz ez].
  apply binary_round_aux_rounded. lia.
Qed.

(** Subtracting a smaller positive number leaves a zero or a positive
    number. *)
Lemma fsub_nonneg (mp : positive) (ep : Z) (md : positive) (ed : Z) :
  val (Zpos md) ed <= val (Zpos mp) ep ->
  rounded false (fsub (S754_finite false mp ep) (S754_finite false md ed)).
Proof.
  intros H. unfold fsub, SFsub. cbn [cond_Zopp].
  set (ez := Z.min ep ed).
  rewrite <- (shl_align_val mp ep ez), <- (shl_align_val md ed ez) in H by (unfold ez; lia).
  apply val_le_inv in H.
  destruct (Zpos (fst (shl_align mp ep ez)) - Zpos (fst (shl_align md ed ez)))%Z
    as [|q|q] eqn:Hq; cbn [binary_normalize]; try lia.
  - constructor.
  - apply binary_round_rounded.
Qed.

Lemma rounded_false_ge (x : float) : rounded false x -> fle pzero x = true.
Proof. intros [|m e|]; reflexivity. Qed.

(** On numbers of the format, [<=] is the order of the values. *)
Lemma fle_val (m1 : positive) (e1 : Z) (m2 : positive) (e2 : Z) :
  bounded prec emax m1 e1 = true -> bounded prec emax m2 e2 = true ->
  fle (S754_finite false m1 e1) (S754_finite false m2 e2) = true ->
  val (Zpos m1) e1 <= val (Zpos m2) e2.
Proof.
  intros Hb1 Hb2. destruct (bounded_canonical _ _ Hb1) as [Hc1 _].
  destruct (bounded_canonical _ _ Hb2) as [Hc2 _].
  unfold fle, SFleb, SFcompare.
  destruct (Z.compare_spec e1 e2) as [He|He|He].
  - subst e2. intros H. apply val_le_mono.
    change (Pos.compare_cont Eq m1 m2) with (Pos.compare m1 m2) in H.
    destruct (Pos.compare_spec m1 m2); try discriminate; lia.
  - intros _.
    assert (Hd : (Zpos (digits2_pos m1) + e1 < Zpos (digits2_pos m2) + e2)%Z).
    { destruct (Z.lt_ge_cases (Zpos (digits2_pos m1) + e1) (Zpos (digits2_pos m2) + e2))
        as [Hlt|Hge]; [exact Hlt|].
      apply fexp_mono in Hge. lia. }
    pose proof (val_upper m1 e1) as Hu. pose proof (val_lower m2 e2) as Hl.
    pose proof (pow2_le (Zpos (digits2_pos m1) + e1) (Zpos (digits2_pos m2) - 1 + e2)
                  ltac:(lia)).
    lra.
  - discriminate.
Qed.
(** ** The error of a rounding *)

Lemma floor_at_shr_1 (X : Q) (mrs : shr_record) (e : Z) :
  floor_at X (shr_m mrs) e -> floor_at X (shr_m (shr_1 mrs)) (e + 1).
Proof.
  destruct mrs as [m r s]. unfold floor_at. cbn [shr_m].
  intros (Hm & Hle & Hlt). rewrite !val_double.
  destruct m as [|[q|q|]|q]; cbn [shr_1 shr_m]; try lia.
  - split; [lia|]. split; [exact Hle|].
    pose proof (val_le_mono (0 + 1) (2 * (0 + 1)) e ltac:(lia)). lra.
  - pose proof (val_le_mono (2 * Zpos q) (Zpos q~1) e ltac:(lia)).
    pose proof (val_le_mono (Zpos q~1 + 1) (2 * (Zpos q + 1)) e ltac:(lia)).
    split; [lia|]. split; lra.
  - pose proof (val_le_mono (2 * Zpos q) (Zpos q~0) e ltac:(lia)).
    pose proof (val_le_mono (Zpos q~0 + 1) (2 * (Zpos q + 1)) e ltac:(lia)).
    split; [lia|]. split; lra.
  - pose proof (val_le_mono (2 * 0) 1 e ltac:(lia)).
    pose proof (val_le_mono (1 + 1) (2 * (0 + 1)) e ltac:(lia)).
    split; [lia|]. split; lra.
Qed.

Lemma floor_at_iter_shr_1 (X : Q) (n : positive) : forall mrs e,
  floor_at X (shr_m mrs) e -> floor_at X (shr_m (iter_pos shr_1 n mrs)) (e + Zpos n).
Proof.
  induction n as [n IH|n IH|]; intros mrs e H; cbn [iter_pos].
  - replace (e + Zpos n~1)%Z with (e + 1 + Zpos n + Zpos n)%Z by lia.
    apply IH, IH, floor_at_shr_1, H.
  - replace (e + Zpos n~0)%Z with (e + Zpos n + Zpos n)%Z by lia.
    apply IH, IH, H.
  - apply floor_at_shr_1, H.
Qed.

Lemma floor_at_shr_fexp (X : Q) (m e : Z) (l : location) :
  floor_at X m e ->
  floor_at X (shr_m (fst (shr_fexp prec emax m e l))) (snd (shr_fexp prec emax m e l)).
Proof.
  intros H. unfold shr_fexp, shr.
  destruct (fexp prec emax (Zdigits2 m + e) - e)%Z as [|k|k]; cbn [fst snd];
    rewrite ?shr_record_of_loc_m; try exact H.
  apply floor_at_iter_shr_1. rewrite shr_record_of_loc_m. exact H.
Qed.

Lemma floor_at_exact (m e : Z) : (0 <= m)%Z -> floor_at (val m e) m e.
Proof.
  intros H. split; [exact H|]. split; [lra|]. apply val_lt_mono. lia.
Qed.

Lemma floor_at_step (X : Q) (m e : Z) : floor_at X m e -> X - val m e < pow2 e.
Proof.
  intros (_ & _ & H).
  assert (Hs : val (m + 1) e == val m e + pow2 e).
  { unfold val. rewrite inject_Z_plus. change (inject_Z 1) with 1. ring. }
  lra.
Qed.

Lemma pow2_52 : pow2 52 == 4503599627370496.
Proof. vm_compute. reflexivity. Qed.

Lemma pow2_m50 : pow2 (-50) == Qmake 1 1125899906842624.
Proof. vm_compute. reflexivity. Qed.

Lemma snd_shr_fexp (m e : Z) (l : location) :
  snd (shr_fexp prec emax m e l) =
  (e + Z.max 0 (fexp prec emax (Zdigits2 m + e) - e))%Z.
Proof. unfold shr_fexp. apply snd_shr. Qed.

Lemma shr_fexp_id (m e : Z) (l : location) :
  (fexp prec emax (Zdigits2 m + e) - e <= 0)%Z ->
  shr_fexp prec emax m e l = (shr_record_of_loc m l, e).
Proof.
  intros H. unfold shr_fexp, shr.
  destruct (fexp prec emax (Zdigits2 m + e) - e)%Z; try lia; reflexivity.
Qed.

Lemma round_nearest_even_between (m : Z) (l : location) :
  (m <= round_nearest_even m l <= m + 1)%Z.
Proof.
  destruct (round_nearest_even_cases m l) as [->|[_ ->]]; lia.
Qed.

Lemma val_succ (m e : Z) : val (m + 1) e == val m e + pow2 e.
Proof. unfold val. rewrite inject_Z_plus. change (inject_Z 1) with 1. ring. Qed.

Lemma val_lower_Z (m e : Z) :
  (0 < m)%Z -> pow2 (Zdigits2 m - 1 + e) <= val m e.
Proof. intros H. destruct m as [|q|q]; try lia. apply val_lower. Qed.

(** Rounding a positive mantissa whose exponent is in the format and not
    above the one the format gives it: the result, when finite, is within
    [2^-50] of the value. *)
Lemma binary_round_aux_error (s : bool) (m : positive) (e : Z) :
  (emin prec emax <= e)%Z ->
  (e <= fexp prec emax (Zpos (digits2_pos m) + e))%Z ->
  let z := binary_round_aux prec emax s (Zpos m) e loc_Exact in
  is_finite z = true ->
  in_range z /\ rounded s z /\
  Qabs (magnitude z - val (Zpos m) e) <= pow2 (-50) * val (Zpos m) e.
Proof.
  intros Hemin He z. subst z.
  pose proof (@binary_round_aux_rounded s (Zpos m) e loc_Exact ltac:(lia)) as Hr.
  set (X := val (Zpos m) e). pose proof (val_pos m e) as HX. fold X in HX.
  unfold binary_round_aux in *.
  destruct (Z.eq_dec e (fexp prec emax (Zpos (digits2_pos m) + e))) as [Heq|Hne].
  - (* nothing to shift *)
    rewrite (shr_fexp_id (Zpos m) e loc_Exact) in * by (cbn [Zdigits2]; lia).
    cbn [shr_record_of_loc shr_m loc_of_shr_record round_nearest_even] in *.
    rewrite (shr_fexp_id (Zpos m) e loc_Exact) in * by (cbn [Zdigits2]; lia).
    cbn [shr_record_of_loc shr_m] in *.
    destruct (Z.leb e (emax - prec)); [|discriminate].
    intros _. split; [exact Hemin|]. split; [exact Hr|].
    cbn [magnitude]. fold X. rewrite pow2_m50.
    apply Qabs_Qle_condition. split; lra.
  - (* the first shift drops bits *)
    set (t := fexp prec emax (Zpos (digits2_pos m) + e)) in *.
    assert (Ht : t = (Zpos (digits2_pos m) + e - prec)%Z) by (unfold t, fexp in *; lia).
    pose proof (floor_at_shr_fexp X (Zpos m) e loc_Exact (floor_at_exact (Zpos m) e ltac:(lia))) as H1.
    pose proof (snd_shr_fexp (Zpos m) e loc_Exact) as He1.
    destruct (shr_fexp prec emax (Zpos m) e loc_Exact) as [mrs' e'].
    cbn [fst snd Zdigits2] in *. fold t in He1.
    assert (He' : e' = t) by lia. clear He1. subst e'.
    set (m1 := shr_m mrs') in *.
    set (m2 := round_nearest_even m1 (loc_of_shr_record mrs')) in *.
    pose proof (round_nearest_even_between m1 (loc_of_shr_record mrs')) as Hm2. fold m2 in Hm2.
    destruct H1 as (Hm1 & Hle1 & Hlt1). rewrite val_succ in Hlt1.
    pose proof (val_le_mono m1 m2 t ltac:(lia)) as Hv2.
    pose proof (val_le_mono m2 (m1 + 1) t ltac:(lia)) as Hv2'. rewrite val_succ in Hv2'.
    (* the step of the grid against the value *)
    pose proof (val_lower m e) as HXlow. fold X in HXlow.
    replace (Zpos (digits2_pos m) - 1 + e)%Z with (t + 52)%Z in HXlow by (rewrite Ht; unfold prec; lia).
    rewrite pow2_add, pow2_52 in HXlow.
    pose proof (pow2_pos t) as Hpt.
    (* the second shift *)
    pose proof (floor_at_shr_fexp (val m2 t) m2 t loc_Exact (floor_at_exact m2 t ltac:(lia))) as H3.
    pose proof (snd_shr_fexp m2 t loc_Exact) as He3.
    destruct (shr_fexp prec emax m2 t loc_Exact) as [mrs'' e''].
    cbn [fst snd] in *.
    set (m3 := shr_m mrs'') in *.
    destruct H3 as (Hm3 & Hle3 & Hlt3). rewrite val_succ in Hlt3.
    pose proof (pow2_pos e'') as Hpe.
    assert (Hstep : pow2 e'' * 4503599627370496 <= X + pow2 t).
    { destruct (Z.le_gt_cases (fexp prec emax (Zdigits2 m2 + t)) t) as [Hk|Hk].
      - replace e'' with t by lia. lra.
      - assert (He'' : e'' = (Zdigits2 m2 + t - prec)%Z) by (unfold fexp in *; lia).
        assert (Hpos : (0 < m2)%Z).
        { destruct m2 as [|q|q]; try lia. cbn [Zdigits2] in *. unfold fexp, prec in *. lia. }
        pose proof (val_lower_Z m2 t Hpos) as Hl2.
        replace (Zdigits2 m2 - 1 + t)%Z with (e'' + 52)%Z in Hl2 by (rewrite He''; unfold prec; lia).
        rewrite pow2_add, pow2_52 in Hl2. lra. }
    assert (Herr : Qabs (val m3 e'' - X) <= pow2 (-50) * X).
    { rewrite pow2_m50. apply Qabs_Qle_condition. split; lra. }
    assert (Hge : (emin prec emax <= e'')%Z) by lia.
    intros Hfin. split; [|split; [exact Hr|]].
    + destruct m3 as [|q|q]; cbn [in_range]; try exact I; try discriminate.
      destruct (Z.leb e'' (emax - prec)); [exact Hge | discriminate].
    + destruct m3 as [|q|q]; cbn [magnitude]; try discriminate.
      * rewrite val_zero in Herr. exact Herr.
      * destruct (Z.leb e'' (emax - prec)); [exact Herr | discriminate].
Qed.

(** ** The error of a sum and of a difference *)

Lemma digits2_pos_iter_xO (m d : positive) :
  Zpos (digits2_pos (Pos.iter xO m d)) = (Zpos (digits2_pos m) + Zpos d)%Z.
Proof.
  induction d as [|d IH] using Pos.peano_ind.
  - cbn. lia.
  - rewrite Pos.iter_succ. cbn [digits2_pos]. rewrite Pos2Z.inj_succ, IH. lia.
Qed.

Lemma shl_align_spec (m : positive) (e t : Z) :
  val (Zpos (fst (shl_align m e t))) (snd (shl_align m e t)) == val (Zpos m) e /\
  snd (shl_align m e t) = Z.min e t /\
  (Zpos (digits2_pos (fst (shl_align m e t))) + snd (shl_align m e t) =
   Zpos (digits2_pos m) + e)%Z.
Proof.
  unfold shl_align. destruct (t - e)%Z as [|d|d] eqn:Hd; cbn [fst snd].
  - split; [reflexivity|]. split; lia.
  - split; [reflexivity|]. split; lia.
  - split; [|split].
    + rewrite iter_xO_val, val_shift by lia.
      replace (t + Zpos d)%Z with e by lia. reflexivity.
    + lia.
    + rewrite digits2_pos_iter_xO. lia.
Qed.

Lemma binary_round_error (s : bool) (m : positive) (e : Z) :
  (emin prec emax <= e)%Z ->
  is_finite (binary_round prec emax s m e) = true ->
  in_range (binary_round prec emax s m e) /\
  rounded s (binary_round prec emax s m e) /\
  Qabs (magnitude (binary_round prec emax s m e) - val (Zpos m) e)
    <= pow2 (-50) * val (Zpos m) e.
Proof.
  intros Hemin. unfold binary_round.
  pose proof (shl_align_spec m e (fexp prec emax (Zpos (digits2_pos m) + e)))
    as (Hval & Hez & Hdig).
  destruct (shl_align m e (fexp prec emax (Zpos (digits2_pos m) + e))) as [mz ez].
  cbn [fst snd] in *. rewrite <- Hval.
  pose proof (fexp_ge_emin (Zpos (digits2_pos m) + e)) as Hge.
  apply binary_round_aux_error.
  - lia.
  - rewrite Hdig. lia.
Qed.

Lemma val_opp (m e : Z) : val (- m) e == - val m e.
Proof. unfold val. rewrite inject_Z_opp. ring. Qed.

Lemma val_add (m n e : Z) : val (m + n) e == val m e + val n e.
Proof. unfold val. rewrite inject_Z_plus. ring. Qed.

Lemma val_sub (m n e : Z) : val (m - n) e == val m e - val n e.
Proof. unfold val, Z.sub. rewrite inject_Z_plus, inject_Z_opp. ring. Qed.

Lemma value_rounded (s : bool) (z : float) :
  rounded s z -> value z == if s then - magnitude z else magnitude z.
Proof.
  intros [|m e|]; destruct s; cbn [value magnitude cond_Zopp]; try reflexivity; try ring.
  apply val_opp.
Qed.

Lemma Qabs_cases (x : Q) : (0 <= x /\ Qabs x == x) \/ (x <= 0 /\ Qabs x == - x).
Proof.
  destruct (Qlt_le_dec x 0) as [H|H].
  - right. split; [lra|]. apply Qabs_neg. lra.
  - left. split; [exact H|]. apply Qabs_pos, H.
Qed.

(** The sum of two mantissas at a common exponent, rounded. *)
Lemma binary_normalize_error (m e : Z) :
  (emin prec emax <= e)%Z ->
  is_finite (binary_normalize prec emax m e false) = true ->
  in_range (binary_normalize prec emax m e false) /\
  Qabs (value (binary_normalize prec emax m e false) - val m e)
    <= pow2 (-50) * Qabs (val m e).
Proof.
  intros Hemin Hfin. destruct m as [|q|q]; cbn [binary_normalize] in *.
  - split; [exact I|]. cbn [value]. rewrite val_zero.
    setoid_replace (0 - 0) with 0 by ring. cbn. lra.
  - destruct (binary_round_error false q e Hemin Hfin) as (Hr & Hs & Herr).
    split; [exact Hr|]. rewrite (value_rounded false _ Hs).
    pose proof (val_pos q e). rewrite (Qabs_pos (val (Zpos q) e)) by lra. exact Herr.
  - destruct (binary_round_error true q e Hemin Hfin) as (Hr & Hs & Herr).
    split; [exact Hr|]. rewrite (value_rounded true _ Hs).
    change (Zneg q) with (- Zpos q)%Z. rewrite val_opp.
    pose proof (val_pos q e).
    rewrite (Qabs_neg (- val (Zpos q) e)) by lra.
    setoid_replace (- magnitude (binary_round prec emax true q e) - - val (Zpos q) e)
      with (- (magnitude (binary_round prec emax true q e) - val (Zpos q) e)) by ring.
    rewrite Qabs_opp.
    setoid_replace (- - val (Zpos q) e) with (val (Zpos q) e) by ring. exact Herr.
Qed.

Lemma value_aligned (s : bool) (m : positive) (e ez : Z) :
  (ez <= e)%Z ->
  val (cond_Zopp s (Zpos (fst (shl_align m e ez)))) ez == value (S754_finite s m e).
Proof.
  intros H. cbn [value]. destruct s; cbn [cond_Zopp].
  - rewrite !val_opp, shl_align_val by exact H. reflexivity.
  - apply shl_align_val, H.
Qed.

Lemma exact_error (x : Q) : Qabs (x - x) <= pow2 (-50) * Qabs x.
Proof.
  setoid_replace (x - x) with 0 by ring. rewrite pow2_m50.
  pose proof (Qabs_nonneg x). cbn [Qabs Z.abs]. lra.
Qed.

(** A sum that is finite is within [2^-50] of the sum of the values. *)
Lemma fadd_error (x y : float) :
  in_range x -> in_range y -> is_finite (fadd x y) = true ->
  in_range (fadd x y) /\
  Qabs (value (fadd x y) - (value x + value y))
    <= pow2 (-50) * Qabs (value x + value y).
Proof.
  intros Hx Hy.
  destruct x as [sx| | |sx mx ex]; try contradiction;
  destruct y as [sy| | |sy my ey]; try contradiction.
  - intros _. split; [destruct sx, sy; exact I|].
    replace (value (fadd (S754_zero sx) (S754_zero sy))) with 0
      by (destruct sx, sy; reflexivity).
    cbn [value]. setoid_replace (0 + 0) with 0 by ring. apply (exact_error 0).
  - intros _. split; [exact Hy|]. cbn [fadd SFadd].
    setoid_replace (value (S754_zero sx) + value (S754_finite sy my ey))
      with (value (S754_finite sy my ey)) by (cbn [value]; ring).
    apply exact_error.
  - intros _. split; [exact Hx|]. cbn [fadd SFadd].
    setoid_replace (value (S754_finite sx mx ex) + value (S754_zero sy))
      with (value (S754_finite sx mx ex)) by (cbn [value]; ring).
    apply exact_error.
  - cbn [in_range] in *. unfold fadd, SFadd.
    set (ez := Z.min ex ey).
    intros Hfin.
    destruct (binary_normalize_error _ ez ltac:(unfold ez; lia) Hfin) as [Hr Herr].
    split; [exact Hr|].
    rewrite val_add, !value_aligned in Herr by (unfold ez; lia). exact Herr.
Qed.

Lemma fsub_error (x y : float) :
  in_range x -> in_range y -> is_finite (fsub x y) = true ->
  in_range (fsub x y) /\
  Qabs (value (fsub x y) - (value x - value y))
    <= pow2 (-50) * Qabs (value x - value y).
Proof.
  intros Hx Hy.
  destruct x as [sx| | |sx mx ex]; try contradiction;
  destruct y as [sy| | |sy my ey]; try contradiction.
  - intros _. split; [destruct sx, sy; exact I|].
    replace (value (fsub (S754_zero sx) (S754_zero sy))) with 0
      by (destruct sx, sy; reflexivity).
    cbn [value]. setoid_replace (0 - 0) with 0 by ring. apply (exact_error 0).
  - intros _. split; [exact Hy|]. cbn [fsub SFsub].
    assert (Hv : value (S754_finite (negb sy) my ey) ==
                 value (S754_zero sx) - value (S754_finite sy my ey)).
    { cbn [value]. destruct sy; cbn [negb cond_Zopp].
      - change (Zneg my) with (- Zpos my)%Z. rewrite val_opp. ring.
      - change (Zneg my) with (- Zpos my)%Z. rewrite val_opp. ring. }
    rewrite <- Hv. apply exact_error.
  - intros _. split; [exact Hx|]. cbn [fsub SFsub].
    setoid_replace (value (S754_finite sx mx ex) - value (S754_zero sy))
      with (value (S754_finite sx mx ex)) by (cbn [value]; ring).
    apply exact_error.
  - cbn [in_range] in *. unfold fsub, SFsub.
    set (ez := Z.min ex ey).
    intros Hfin.
    destruct (binary_normalize_error _ ez ltac:(unfold ez; lia) Hfin) as [Hr Herr].
    split; [exact Hr|].
    rewrite val_sub, !value_aligned in Herr by (unfold ez; lia). exact Herr.
Qed.

(** ** The error of the recombined sum *)

Lemma pow2_m47 : pow2 (-47) == Qmake 1 140737488355328.
Proof. vm_compute. reflexivity. Qed.

Lemma Qabs_ge_opp (x : Q) : - x <= Qabs x.
Proof. rewrite <- Qabs_opp. apply Qle_Qabs. Qed.

(** Four operations, each within [2^-50] of its exact result, bring the
    parts back to the income within [2^-47] of their sizes. *)
Lemma recombine_error (I E M x1 cf y1 S : Q) :
  Qabs (x1 - (I - E)) <= pow2 (-50) * Qabs (I - E) ->
  Qabs (cf - (x1 - M)) <= pow2 (-50) * Qabs (x1 - M) ->
  Qabs (y1 - (cf + M)) <= pow2 (-50) * Qabs (cf + M) ->
  Qabs (S - (y1 + E)) <= pow2 (-50) * Qabs (y1 + E) ->
  Qabs (S - I) <= pow2 (-47) * (Qabs I + Qabs E + Qabs M).
Proof.
  intros H1 H2 H3 H4. rewrite pow2_m50 in *. rewrite pow2_m47.
  apply Qabs_Qle_condition in H1, H2, H3, H4.
  pose proof (Qle_Qabs I) as HI. pose proof (Qabs_ge_opp I) as HI'.
  pose proof (Qle_Qabs E) as HE. pose proof (Qabs_ge_opp E) as HE'.
  pose proof (Qle_Qabs M) as HM. pose proof (Qabs_ge_opp M) as HM'.
  revert HI HI' HE HE' HM HM'.
  generalize (Qabs I) (Qabs E) (Qabs M). intros aI aE aM HI HI' HE HE' HM HM'.
  destruct (Qabs_cases (I - E)) as [[? Ha]|[? Ha]]; rewrite Ha in H1; clear Ha;
  destruct (Qabs_cases (x1 - M)) as [[? Hb]|[? Hb]]; rewrite Hb in H2; clear Hb;
  destruct (Qabs_cases (cf + M)) as [[? Hc]|[? Hc]]; rewrite Hc in H3; clear Hc;
  destruct (Qabs_cases (y1 + E)) as [[? Hd]|[? Hd]]; rewrite Hd in H4; clear Hd;
  apply Qabs_Qle_condition; split; lra.
Qed.

Lemma fadd_finite (x y : float) :
  is_finite (fadd x y) = true -> is_finite x = true /\ is_finite y = true.
Proof.
  destruct x as [sx|sx| |sx mx ex]; destruct y as [sy|sy| |sy my ey];
    try (intros _; split; reflexivity); try discriminate;
    destruct sx, sy; discriminate.
Qed.

Lemma fsub_finite (x y : float) :
  is_finite (fsub x y) = true -> is_finite x = true /\ is_finite y = true.
Proof.
  destruct x as [sx|sx| |sx mx ex]; destruct y as [sy|sy| |sy my ey];
    try (intros _; split; reflexivity); try discriminate;
    destruct sx, sy; discriminate.
Qed.

Lemma binary_round_aux_tame (s : bool) (m e : Z) (l : location) :
  tame (binary_round_aux prec emax s m e l).
Proof.
  unfold tame, binary_round_aux.
  pose proof (snd_shr_fexp m e l) as He1.
  pose proof (fexp_ge_emin (Zdigits2 m + e)) as Hge.
  destruct (shr_fexp prec emax m e l) as [mrs' e']. cbn [snd] in He1.
  pose proof (snd_shr_fexp (round_nearest_even (shr_m mrs') (loc_of_shr_record mrs')) e' loc_Exact)
    as He2.
  destruct (shr_fexp prec emax _ e' loc_Exact) as [mrs'' e'']. cbn [snd] in He2.
  destruct (shr_m mrs'') as [|q|q]; cbn [in_range is_finite]; try discriminate.
  - intros _. exact I.
  - destruct (Z.leb e'' (emax - prec)); [|discriminate]. intros _. cbn [in_range]. lia.
Qed.

Lemma fmul_tame (x y : float) : tame (fmul x y).
Proof.
  destruct x as [sx|sx| |sx mx ex]; destruct y as [sy|sy| |sy my ey];
    try (intros _; exact I); try (intros H; discriminate H).
  apply binary_round_aux_tame.
Qed.

Lemma fdiv_tame (x y : float) : tame (fdiv x y).
Proof.
  destruct x as [sx|sx| |sx mx ex]; destruct y as [sy|sy| |sy my ey];
    try (intros _; exact I); try (intros H; discriminate H).
  unfold fdiv, SFdiv.
  destruct (SFdiv_core_binary prec emax (Zpos mx) ex (Zpos my) ey) as [[mz ez] lz].
  apply binary_round_aux_tame.
Qed.

Lemma fadd_tame (x y : float) : tame x -> tame y -> tame (fadd x y).
Proof.
  intros Hx Hy Hfin. destruct (fadd_finite x y Hfin) as [Fx Fy].
  apply fadd_error; auto.
Qed.

Lemma valid_tame (x : float) : valid_binary prec emax x = true -> tame x.
Proof.
  intros Hv Hfin. destruct x as [s|s| |s m e]; try discriminate Hfin.
  - exact I.
  - cbn [valid_binary] in Hv. destruct (bounded_canonical m e Hv) as [Hc _].
    cbn [in_range]. rewrite <- Hc. apply fexp_ge_emin.
Qed.
End Binary64Order.

Section Binary64Bound.
Variable pow : float -> float -> float.
Local Hint Extern 0 (NumberOps float) =>
  exact (Binary64.ops pow) : typeclass_instances.
Local Open Scope num_scope.

Lemma loanAmount_float (p : Property float) :
  loanAmount p = fsub (price p) (fmul (price p) (fdiv (downPaymentPercent p) (flit 100))).
Proof. reflexivity. Qed.

Lemma percent_at_most_one (d : float) :
  valid d = true ->
  fle (flit 0) d = true -> fle d (flit 100) = true ->
  (exists s, fdiv d (flit 100) = S754_zero s) \/
  (exists m e, fdiv d (flit 100) = S754_finite false m e /\ (val (Zpos m) e <= 1)%Q).
Proof.
  intros Hv H0 H100. rewrite flit_0, flit_100 in *.
  destruct d as [s|[]| |s m e]; try discriminate.
  - left. exists (xorb s false). reflexivity.
  - destruct s; try discriminate.
    assert (Hle : (val (Zpos m) e <= val 7036874417766400 (-46))%Q).
    { apply fle_val; [exact Hv | vm_compute; reflexivity | exact H100]. }
    pose proof (fdiv_at_most_one m e 7036874417766400 (-46) Hle) as H.
    destruct (fdiv (S754_finite false m e) (S754_finite false 7036874417766400 (-46)))
      as [[]|[]| |[] mf ef]; cbn [at_most] in H; try contradiction.
    + left. exists false. reflexivity.
    + right. exists mf, ef. split; [reflexivity | exact H].
Qed.

(** With a finite price [>= 0] and a percentage in [0,100] the loan
    amount is [>= 0]: the quotient by 100 is at most 1, so the down
    payment does not exceed the price. *)
Lemma binary64_loan_nonneg (p : Property float) :
  valid (price p) = true ->
  valid (downPaymentPercent p) = true ->
  is_finite (price p) = true -> fle #0 (price p) = true ->
  fle #0 (downPaymentPercent p) = true -> fle (downPaymentPercent p) #100 = true ->
  fle #0 (loanAmount p) = true.
Proof.
  intros Hvp Hvd Hfin Hp Hd0 Hd100.
  rewrite loanAmount_float. change (lit 0%Q) with pzero in *.
  destruct (percent_at_most_one (downPaymentPercent p) Hvd Hd0 Hd100)
    as [[s ->]|(mf & ef & -> & Hf)].
  - destruct (price p) as [sp| | |sp mp ep]; try discriminate.
    + destruct sp, s; reflexivity.
    + destruct sp; try discriminate. reflexivity.
  - destruct (price p) as [sp| | |sp mp ep]; try discriminate.
    + destruct sp; reflexivity.
    + destruct sp; try discriminate.
      pose proof (fmul_at_most mp ep mf ef Hvp Hf) as H.
      destruct (fmul (S754_finite false mp ep) (S754_finite false mf ef))
        as [[]|[]| |[] md ed]; cbn [at_most] in H; try contradiction.
      * reflexivity.
      * apply rounded_false_ge, fsub_nonneg, H.
Qed.
End Binary64Bound.

Section Binary64Tolerance.
Variable pow : float -> float -> float.
Local Hint Extern 0 (NumberOps float) =>
  exact (Binary64.ops pow) : typeclass_instances.
Local Open Scope num_scope.

Lemma or_else_tame (v : option float) :
  valid_option v = true -> tame (or_else v #0).
Proof.
  intros Hv. destruct v as [x|]; cbn [or_else].
  - destruct (truthy x); [apply valid_tame, Hv | intros _; exact I].
  - intros _. exact I.
Qed.

Lemma monthlyIncome_tame (p : Property float) :
  tame (monthlyIncome (calculateMetrics p)).
Proof. rewrite monthlyIncome_eq. apply fdiv_tame. Qed.

Lemma monthlyMortgage_tame (p : Property float) :
  tame (monthlyMortgage (calculateMetrics p)).
Proof.
  rewrite monthlyMortgage_eq. destruct (monthlyRate p >? #0); apply fdiv_tame.
Qed.

Lemma monthlyExpenses_tame (p : Property float) :
  valid (snowRemoval p) = true -> valid_option (hotTubMaintenance p) = true ->
  valid (utilities p) = true -> valid (maintenance p) = true ->
  valid (hoa p) = true -> valid (otherExpenses p) = true ->
  tame (monthlyExpenses (calculateMetrics p)).
Proof.
  intros Hs Hh Hu Hm Ha Ho. rewrite monthlyExpenses_eq. unfold managementFee.
  repeat apply fadd_tame;
    first [ apply fmul_tame | apply fdiv_tame | apply or_else_tame; assumption
          | apply valid_tame; assumption ].
Qed.

(** While the sum of the parts is finite it is within [2^-47] of the
    income, relative to the sizes of the three parts. *)
Lemma recombined_within_tolerance (p : Property float) :
  let r := calculateMetrics p in
  let sum := cashFlow r + monthlyMortgage r + monthlyExpenses r in
  valid (snowRemoval p) = true -> valid_option (hotTubMaintenance p) = true ->
  valid (utilities p) = true -> valid (maintenance p) = true ->
  valid (hoa p) = true -> valid (otherExpenses p) = true ->
  is_finite sum = true ->
  (Qabs (value sum - value (monthlyIncome r))
   <= pow2 (-47) * (Qabs (value (monthlyIncome r)) +
                    Qabs (value (monthlyExpenses r)) +
                    Qabs (value (monthlyMortgage r))))%Q.
Proof.
  intros r sum Hs Hh Hu Hm Ha Ho.
  pose proof (monthlyIncome_tame p) as TI.
  pose proof (monthlyMortgage_tame p) as TM.
  pose proof (monthlyExpenses_tame p Hs Hh Hu Hm Ha Ho) as TE.
  unfold sum, r. rewrite cashFlow_eq. cbv zeta. clear sum r.
  revert TI TM TE.
  generalize (monthlyIncome (calculateMetrics p)) (monthlyMortgage (calculateMetrics p))
             (monthlyExpenses (calculateMetrics p)).
  intros I M E TI TM TE HS.
  change (is_finite (fadd (fadd (fsub (fsub I E) M) M) E) = true) in HS.
  change (Qabs (value (fadd (fadd (fsub (fsub I E) M) M) E) - value I)
          <= pow2 (-47) * (Qabs (value I) + Qabs (value E) + Qabs (value M)))%Q.
  destruct (fadd_finite _ _ HS) as [Hy1 FE].
  destruct (fadd_finite _ _ Hy1) as [Hcf FM].
  destruct (fsub_finite _ _ Hcf) as [Hx1 _].
  destruct (fsub_finite _ _ Hx1) as [FI _].
  destruct (fsub_error I E (TI FI) (TE FE) Hx1) as [Rx1 E1].
  destruct (fsub_error _ M Rx1 (TM FM) Hcf) as [Rcf E2].
  destruct (fadd_error _ M Rcf (TM FM) Hy1) as [Ry1 E3].
  destruct (fadd_error _ E Ry1 (TE FE) HS) as [_ E4].
  exact (recombine_error _ _ _ _ _ _ _ E1 E2 E3 E4).
Qed.
End Binary64Tolerance.

Set Implicit Arguments.

(** * The engine over exact arithmetic *)

Section ExactReading.
Variable pow : Qc -> Qc -> Qc.
Local Hint Extern 0 (NumberOps Qc) =>
  exact (Exact.ops pow) : typeclass_instances.
Local Open Scope num_scope.

Lemma Qc_100_neq_0 : Q2Qc 100 <> Q2Qc 0.
Proof. intros H. apply Q2Qc_eq_iff in H. discriminate H. Qed.

Lemma Qc_percent_le_1 (d : Qc) : (d <= Q2Qc 100 -> d / Q2Qc 100 <= 1)%Qc.
Proof.
  intros H. rewrite <- (@Qcmult_inv_r (Q2Qc 100) Qc_100_neq_0). unfold Qcdiv.
  apply Qcmult_le_compat_r; [exact H | discriminate].
Qed.

Lemma Qc_scale_nonneg (x d : Qc) :
  (0 <= x -> d <= Q2Qc 100 -> 0 <= x * (1 - d / Q2Qc 100))%Qc.
Proof.
  intros Hx Hd. rewrite <- (Qcmult_0_l (1 - d / Q2Qc 100)).
  apply Qcmult_le_compat_r; [exact Hx|].
  unfold Qcminus. apply (proj1 (Qcle_minus_iff _ _)), Qc_percent_le_1, Hd.
Qed.

Lemma loanAmount_factored (p : Property Qc) :
  loanAmount p = price p * (#1 - downPaymentPercent p / #100).
Proof.
  unfold loanAmount, downPayment.
  change (price p - price p * (downPaymentPercent p / Q2Qc 100) =
          price p * (1 - downPaymentPercent p / Q2Qc 100))%Qc.
  ring.
Qed.

Lemma exact_loan_nonneg (p : Property Qc) :
  (0 <= price p)%Qc ->
  (0 <= downPaymentPercent p)%Qc -> (downPaymentPercent p <= #100)%Qc ->
  loanAmount p = price p * (#1 - downPaymentPercent p / #100)
  /\ (0 <= loanAmount p)%Qc.
Proof.
  intros Hp _ Hd. split; [apply loanAmount_factored|].
  rewrite loanAmount_factored. apply Qc_scale_nonneg; assumption.
Qed.

Lemma exact_parts_add_up (p : Property Qc) :
  let r := calculateMetrics p in
  (cashFlow r + monthlyMortgage r + monthlyExpenses r)%Qc = monthlyIncome r.
Proof.
  intros r. unfold r. rewrite cashFlow_eq. cbv zeta.
  change (@sub Qc _) with Qcminus. ring.
Qed.
End ExactReading.

(** C5, amended. The engine computes
    [cashFlow = monthlyIncome - monthlyExpenses - monthlyMortgage], so
    over exact arithmetic
    [cashFlow + monthlyMortgage + monthlyExpenses = monthlyIncome] for
    every [Property]; in binary64 the sum of the parts, while it is
    finite, is within [2^-47 * (|monthlyIncome| + |monthlyExpenses| +
    |monthlyMortgage|)] of the income, and it is NaN once the mortgage
    payment is not finite. *)
Theorem accounting_identity :
  (forall (pow : Qc -> Qc -> Qc) (p : Property Qc),
     let r := @calculateMetrics Qc (Exact.ops pow) p in
     cashFlow r = (monthlyIncome r - monthlyExpenses r - monthlyMortgage r)%Qc
     /\ (cashFlow r + monthlyMortgage r + monthlyExpenses r)%Qc = monthlyIncome r)
  /\ (forall (pow : float -> float -> float) (p : Property float),
     let r := @calculateMetrics float (Binary64.ops pow) p in
     let sum := fadd (fadd (cashFlow r) (monthlyMortgage r)) (monthlyExpenses r) in
     cashFlow r = fsub (fsub (monthlyIncome r) (monthlyExpenses r)) (monthlyMortgage r)
     /\ (valid (snowRemoval p) = true -> valid_option (hotTubMaintenance p) = true ->
         valid (utilities p) = true -> valid (maintenance p) = true ->
         valid (hoa p) = true -> valid (otherExpenses p) = true ->
         is_finite sum = true ->
         (Qabs (value sum - value (monthlyIncome r))
          <= pow2 (-47) * (Qabs (value (monthlyIncome r)) +
                           Qabs (value (monthlyExpenses r)) +
                           Qabs (value (monthlyMortgage r))))%Q)
     /\ (is_finite (monthlyMortgage r) = false -> sum = NaN)).
Proof.
  split.
  - intros pow p r. split.
    + exact (@cashFlow_eq Qc (Exact.ops pow) p).
    + apply exact_parts_add_up.
  - intros pow p r sum. split; [|split].
    + exact (@cashFlow_eq float (Binary64.ops pow) p).
    + apply recombined_within_tolerance.
    + apply recombined_not_finite.
Qed.

(** C8, amended. With a finite [price >= 0] and [downPaymentPercent] in
    [0,100] the loan amount that [calculateMetrics] computes is [>= 0];
    over exact arithmetic it is [price * (1 - downPaymentPercent/100)]. *)
Theorem loanAmount_nonneg :
  (forall (pow : float -> float -> float) (p : Property float),
     valid (price p) = true ->
     valid (downPaymentPercent p) = true ->
     is_finite (price p) = true ->
     fle (flit 0) (price p) = true ->
     fle (flit 0) (downPaymentPercent p) = true ->
     fle (downPaymentPercent p) (flit 100) = true ->
     fle (flit 0) (@loanAmount float (Binary64.ops pow) p) = true)
  /\ (forall (pow : Qc -> Qc -> Qc) (p : Property Qc),
     (0 <= price p)%Qc ->
     (0 <= downPaymentPercent p)%Qc -> (downPaymentPercent p <= Q2Qc 100)%Qc ->
     @loanAmount Qc (Exact.ops pow) p =
       (price p * (1 - downPaymentPercent p / Q2Qc 100))%Qc
     /\ (0 <= @loanAmount Qc (Exact.ops pow) p)%Qc).
Proof.
  split.
  - intros pow p. apply binary64_loan_nonneg.
  - intros pow p. apply exact_loan_nonneg.
Qed.

(** * The theorems at concrete inputs *)

Section Witnesses.
Local Hint Extern 0 (NumberOps float) =>
  exact (Binary64.ops pow_iter) : typeclass_instances.
Local Hint Extern 0 (NumberOps Qc) =>
  exact (Exact.ops Exact.pow_nat) : typeclass_instances.
Local Open Scope num_scope.

(** Scenario A runs to the figures the specification expects: a payment
    of about 2347 a month on 360000 at 6.8 percent over 30 years (with
    [pow_iter] for [Math.pow]) and an income of 3650. *)
Example scenarioA_mortgage :
  let m := monthlyMortgage (calculateMetrics scenarioA) in
  fle (of_Z 2346) m && fle m (of_Z 2347) = true.
Proof. vm_compute. reflexivity. Qed.

Example scenarioA_exact_income :
  monthlyIncome (calculateMetrics Exact.standard) = Q2Qc 3650.
Proof. rewrite monthlyIncome_eq. apply Qc_is_canon. vm_compute. reflexivity. Qed.

(** C5 fails on a term of 0 years: without interest the payment is
    360000/0, an infinity, the cash flow is the opposite infinity and the
    parts add up to NaN, not to the income of 3650. *)
Lemma zero_term_parts_are_nan :
  let r := calculateMetrics zeroTerm in
  monthlyMortgage r = S754_infinity false
  /\ cashFlow r = S754_infinity true
  /\ cashFlow r + monthlyMortgage r + monthlyExpenses r = NaN
  /\ monthlyIncome r = #3650.
Proof. vm_compute. repeat split; reflexivity. Qed.

(** Scenario A adds up within the tolerance; the term of 0 years does
    not. *)
Lemma accounting_identity_witness :
  let r := calculateMetrics scenarioA in
  let r0 := calculateMetrics zeroTerm in
  (Qabs (value (cashFlow r + monthlyMortgage r + monthlyExpenses r)%num -
         value (monthlyIncome r))
   <= pow2 (-47) * (Qabs (value (monthlyIncome r)) +
                    Qabs (value (monthlyExpenses r)) +
                    Qabs (value (monthlyMortgage r))))%Q
  /\ cashFlow r0 + monthlyMortgage r0 + monthlyExpenses r0 = NaN.
Proof.
  destruct accounting_identity as [_ H]. intros r r0. split.
  - destruct (H pow_iter scenarioA) as (_ & Htol & _).
    apply Htol; vm_compute; reflexivity.
  - destruct (H pow_iter zeroTerm) as (_ & _ & Hnan).
    apply Hnan. vm_compute. reflexivity.
Defined.

(** Scenario A: the monthly rate is positive and the payment is the
    annuity. *)
Lemma annuity_when_rate_positive_witness :
  let loan := price scenarioA - price scenarioA * (downPaymentPercent scenarioA / #100) in
  let r := interestRate scenarioA / #100 / #12 in
  let n := loanTermYears scenarioA * #12 in
  (r >? #0) = true /\
  monthlyMortgage (calculateMetrics scenarioA) =
  (loan * r * Math_pow (#1 + r) n) / (Math_pow (#1 + r) n - #1).
Proof.
  split; [vm_compute; reflexivity|].
  apply (@annuity_when_rate_positive float (Binary64.ops pow_iter) scenarioA).
  vm_compute. reflexivity.
Defined.

(** Scenario B. *)
Lemma zero_interest_straight_line_witness :
  loanAmount scenarioB = pzero /\ monthlyMortgage (calculateMetrics scenarioB) = pzero.
Proof.
  destruct (@zero_interest_straight_line pow_iter scenarioB) as [_ H].
  - vm_compute. reflexivity.
  - apply H; vm_compute; reflexivity.
Defined.

Lemma monthlyIncome_formula_witness : monthlyIncome (calculateMetrics scenarioA) = of_Z 3650.
Proof.
  destruct (@monthlyIncome_formula pow_iter scenarioA) as [_ H].
  apply H; vm_compute; reflexivity.
Defined.

(** A hot tub at 150 a month is added as it is; the +0 of scenario A
    counts for 0.  The expenses are about 1604.17 with the one and
    1454.17 with the other. *)
Lemma monthlyExpenses_formula_witness :
  let r := calculateMetrics Inputs.hotTub150 in
  let r0 := calculateMetrics scenarioA in
  monthlyExpenses r =
    monthlyIncome r * (managementFeePercent Inputs.hotTub150 / #100) +
    propertyTax Inputs.hotTub150 / #12 + insurance Inputs.hotTub150 / #12 +
    snowRemoval Inputs.hotTub150 +
    of_Z 150 +
    utilities Inputs.hotTub150 + maintenance Inputs.hotTub150 + hoa Inputs.hotTub150 +
    otherExpenses Inputs.hotTub150
  /\ monthlyExpenses r0 =
    monthlyIncome r0 * (managementFeePercent scenarioA / #100) +
    propertyTax scenarioA / #12 + insurance scenarioA / #12 + snowRemoval scenarioA +
    #0 +
    utilities scenarioA + maintenance scenarioA + hoa scenarioA + otherExpenses scenarioA.
Proof.
  intros r r0. split.
  - destruct (@monthlyExpenses_formula float (Binary64.ops pow_iter) Inputs.hotTub150)
      as (H & _ & _).
    apply (H (of_Z 150)); reflexivity.
  - destruct (@monthlyExpenses_formula float (Binary64.ops pow_iter) scenarioA)
      as (_ & H & _).
    apply H. right. exists pzero. split; reflexivity.
Defined.

Example hotTub150_expenses :
  let e := monthlyExpenses (calculateMetrics Inputs.hotTub150) in
  let e0 := monthlyExpenses (calculateMetrics scenarioA) in
  fle (of_Z 1604) e && fle e (of_Z 1605) && fle (of_Z 1454) e0 && fle e0 (of_Z 1455) = true.
Proof. vm_compute. reflexivity. Qed.

(** Scenario C for the guard, scenario A for the quotient. *)
Lemma cashOnCash_guard_witness :
  cashOnCashReturn (calculateMetrics scenarioC) = pzero
  /\ cashOnCashReturn (calculateMetrics scenarioA) =
     (cashFlow (calculateMetrics scenarioA) * #12 /
      totalInvestment (calculateMetrics scenarioA)) * #100.
Proof.
  split.
  - destruct (@cashOnCash_guard pow_iter scenarioC) as (_ & _ & H & H').
    assert (H0 : is_zero (totalInvestment (calculateMetrics scenarioC)) = true)
      by (apply H'; vm_compute; reflexivity).
    apply H. left. exact H0.
  - destruct (@cashOnCash_guard pow_iter scenarioA) as (_ & H & _).
    apply H. vm_compute. reflexivity.
Defined.

Lemma capRate_unguarded_witness : is_finite (capRate (calculateMetrics scenarioC)) = false.
Proof.
  destruct (@capRate_unguarded pow_iter scenarioC) as (_ & _ & H).
  apply H. vm_compute. reflexivity.
Defined.

Lemma negative_rate_straight_line_witness :
  monthlyMortgage (calculateMetrics negativeRate) =
  fdiv (loanAmount negativeRate) (of_Z 360).
Proof.
  destruct (@negative_rate_straight_line pow_iter negativeRate) as (_ & _ & H).
  - vm_compute. reflexivity.
  - rewrite H. vm_compute. reflexivity.
Defined.

Lemma hotTub_falsy_is_zero_witness :
  calculateMetrics hotTubNaN = calculateMetrics scenarioA
  /\ monthlyExpenses (calculateMetrics snowRemovalNaN) = NaN.
Proof.
  split.
  - destruct (@hotTub_falsy_is_zero pow_iter hotTubNaN) as [H _].
    rewrite H; [reflexivity | vm_compute; reflexivity].
  - destruct (@hotTub_falsy_is_zero pow_iter snowRemovalNaN) as [_ H].
    apply H. right. right. right. left. reflexivity.
Defined.

Lemma loanAmount_nonneg_witness :
  fle (flit 0) (loanAmount scenarioA) = true
  /\ (0 <= loanAmount Exact.standard)%Qc.
Proof.
  destruct loanAmount_nonneg as [H64 HQ]. split.
  - apply (H64 pow_iter scenarioA); vm_compute; reflexivity.
  - apply (HQ Exact.pow_nat Exact.standard); vm_compute; discriminate.
Defined.

(** C8 fails on a negative price: a down payment of 20 percent on
    -100000 leaves a loan of -80000, in binary64 and over the rationals. *)
Lemma loanAmount_negative_price :
  (fle (flit 0) (downPaymentPercent negativePrice) = true
   /\ fle (downPaymentPercent negativePrice) (flit 100) = true
   /\ loanAmount negativePrice = of_Z (-80000)
   /\ fle (flit 0) (loanAmount negativePrice) = false)
  /\ ((0 <= downPaymentPercent Exact.belowZero)%Qc
      /\ (downPaymentPercent Exact.belowZero <= Q2Qc 100)%Qc
      /\ (loanAmount Exact.belowZero < 0)%Qc).
Proof.
  split.
  - repeat split; vm_compute; reflexivity.
  - repeat split; vm_compute; solve [discriminate | reflexivity].
Defined.
End Witnesses.

Unset Implicit Arguments.

(** * Strings *)

Section Strings.
Local Open Scope string_scope.

Lemma string_append_assoc (s t u : string) : (s ++ t) ++ u = s ++ (t ++ u).
Proof. induction s as [|c s IH]; simpl; [reflexivity | rewrite IH; reflexivity]. Qed.

Lemma string_append_nil (s : string) : s ++ EmptyString = s.
Proof. induction s as [|c s IH]; simpl; [reflexivity | rewrite IH; reflexivity]. Qed.

Lemma string_length_append (s t : string) :
  String.length (s ++ t) = (String.length s + String.length t)%nat.
Proof. induction s as [|c s IH]; simpl; [reflexivity | rewrite IH; reflexivity]. Qed.

Lemma substring_split (i : nat) : forall s : string,
  (i <= String.length s)%nat ->
  substring 0 i s ++ substring i (String.length s - i) s = s.
Proof.
  induction i as [|i IH]; intros s H.
  - rewrite Nat.sub_0_r. destruct s as [|c s]; simpl; [reflexivity|].
    f_equal. clear H. induction s as [|d s IHs]; simpl; [reflexivity | f_equal; exact IHs].
  - destruct s as [|c s]; simpl in *; [lia|].
    f_equal. apply IH. lia.
Qed.

Lemma length_substring (i j : nat) : forall s : string,
  (i + j <= String.length s)%nat -> String.length (substring i j s) = j.
Proof.
  induction i as [|i IH]; intros s H.
  - revert s H. induction j as [|j IHj]; intros s H.
    + destruct s; reflexivity.
    + destruct s as [|c s]; simpl in *; [lia|]. f_equal. apply IHj. lia.
  - destruct s as [|c s]; simpl in *; [lia|]. apply IH. lia.
Qed.

Lemma substring_prefix_part (m : nat) : forall s : string,
  exists y, s = substring 0 m s ++ y.
Proof.
  induction m as [|m IH]; intros s.
  - exists s. destruct s; reflexivity.
  - destruct s as [|c s]; simpl.
    + exists EmptyString. reflexivity.
    + destruct (IH s) as [y E]. exists y. f_equal. exact E.
Qed.

Lemma substring_part (n m : nat) : forall s : string,
  exists x y, s = x ++ substring n m s ++ y.
Proof.
  induction n as [|n IH]; intros s.
  - destruct (substring_prefix_part m s) as [y E]. exists EmptyString, y. exact E.
  - destruct s as [|c s]; simpl.
    + exists EmptyString, EmptyString. destruct m; reflexivity.
    + destruct (IH s) as (x & y & E). exists (String c x), y. simpl. f_equal. exact E.
Qed.

Lemma substring_middle (a u b : string) :
  substring (String.length a) (String.length u) (a ++ u ++ b) = u.
Proof.
  induction a as [|x a IH]; [|exact IH].
  cbn [append String.length]. revert b. induction u as [|y u IHu]; intros b.
  - destruct b; reflexivity.
  - cbn. rewrite IHu. reflexivity.
Qed.

Lemma prefix_nil (s : string) : prefix EmptyString s = true.
Proof. destruct s; reflexivity. Qed.

Lemma prefix_cons (c : ascii) (pat s : string) :
  prefix (String c pat) (String c s) = prefix pat s.
Proof. simpl. destruct (ascii_dec c c); [reflexivity | congruence]. Qed.

Lemma prefix_other (c a : ascii) (pat s : string) :
  a <> c -> prefix (String c pat) (String a s) = false.
Proof. intros N. simpl. destruct (ascii_dec c a); [congruence | reflexivity]. Qed.

Lemma prefix_append (pat b : string) : prefix pat (pat ++ b) = true.
Proof.
  induction pat as [|c pat IH]; [apply prefix_nil|].
  cbn [append]. rewrite prefix_cons. exact IH.
Qed.
End Strings.

(** * [formatPercent] *)

Section FormatDigits.
Import Format.
Local Open Scope string_scope.

Lemma length_zeros (n : nat) : String.length (zeros n) = n.
Proof. induction n as [|n IH]; simpl; [reflexivity | rewrite IH; reflexivity]. Qed.

(** [point] cuts its argument, padded to three digits, before the last
    two. *)
Lemma point_spec (m : string) :
  exists a b : string,
    point m = a ++ "." ++ b /\ String.length b = 2%nat /\ (1 <= String.length a)%nat /\
    a ++ b = zeros (3 - String.length m) ++ m.
Proof.
  unfold point.
  set (k := String.length m).
  set (m' := if (k <=? 2)%nat then zeros (2 + 1 - k) ++ m else m).
  set (k' := if (k <=? 2)%nat then (2 + 1)%nat else k).
  assert (Hk : String.length m' = k' /\ (3 <= k')%nat /\ m' = zeros (3 - k) ++ m).
  { unfold m', k'. destruct (Nat.leb_spec k 2) as [H|H].
    - rewrite string_length_append, length_zeros. fold k.
      split; [lia|]. split; [lia|reflexivity].
    - fold k. split; [reflexivity|]. split; [lia|].
      replace (3 - k)%nat with 0%nat by lia. reflexivity. }
  destruct Hk as (Hlen & H3 & Hm').
  exists (substring 0 (k' - 2) m'), (substring (k' - 2) 2 m').
  split; [reflexivity|]. split; [apply length_substring; lia|]. split.
  - rewrite length_substring by lia. lia.
  - rewrite <- Hm'.
    pose proof (substring_split (k' - 2)%nat m' ltac:(lia)) as H.
    replace (String.length m' - (k' - 2))%nat with 2%nat in H by lia. exact H.
Qed.

Lemma zeros_string_of_uint (n : nat) (d : Decimal.uint) :
  zeros n ++ NilEmpty.string_of_uint d = NilEmpty.string_of_uint (leading_zeros n d).
Proof. induction n as [|n IH]; simpl; [reflexivity | rewrite IH; reflexivity]. Qed.

Lemma of_uint_leading_zeros (n : nat) (d : Decimal.uint) :
  N.of_uint (leading_zeros n d) = N.of_uint d.
Proof. induction n as [|n IH]; simpl; [reflexivity | exact IH]. Qed.

Lemma decimal_nil_empty (n : N) : decimal n = NilEmpty.string_of_uint (N.to_uint n).
Proof.
  unfold decimal, NilZero.string_of_uint.
  destruct (N.to_uint n) eqn:E; try reflexivity.
  destruct n as [|p]; [discriminate|].
  simpl in E. pose proof (DecimalPos.Unsigned.to_uint_nonnil p) as H. congruence.
Qed.

(** The digits read back as the number, whatever zeros come first. *)
Lemma read_decimal_zeros (j : nat) (n : N) :
  read_decimal (zeros j ++ decimal n) = Some n.
Proof.
  unfold read_decimal. rewrite decimal_nil_empty, zeros_string_of_uint, NilEmpty.usu.
  simpl. rewrite of_uint_leading_zeros, DecimalN.Unsigned.of_to. reflexivity.
Qed.
End FormatDigits.

Section FormatValues.
Import Format.
Local Open Scope Q_scope.

Lemma pow2_neg (k : positive) : pow2 (Zneg k) * inject_Z (2 ^ Zpos k) == 1.
Proof.
  rewrite <- pow2_Z by lia. rewrite <- pow2_add.
  replace (Z.neg k + Z.pos k)%Z with 0%Z by lia. reflexivity.
Qed.

Lemma val_neg (m : Z) (k : positive) :
  val m (Zneg k) * inject_Z (2 ^ Zpos k) == inject_Z m.
Proof.
  unfold val. rewrite <- Qmult_assoc, pow2_neg. ring.
Qed.

Lemma val_nonneg_exp (m e : Z) : (0 <= e)%Z -> val m e == inject_Z (m * 2 ^ e).
Proof.
  intros H. unfold val. rewrite pow2_Z by exact H. rewrite inject_Z_mult. reflexivity.
Qed.

Lemma at_least_1e21_false (m : positive) (e : Z) :
  val (Zpos m) e < inject_Z (10 ^ 21) -> at_least_1e21 m e = false.
Proof.
  intros H. unfold at_least_1e21. destruct e as [|k|k].
  - rewrite val_nonneg_exp in H by lia. rewrite <- Zlt_Qlt in H. apply Z.leb_gt. exact H.
  - rewrite val_nonneg_exp in H by lia. rewrite <- Zlt_Qlt in H. apply Z.leb_gt. exact H.
  - apply Z.leb_gt.
    assert (HD : 0 < inject_Z (2 ^ Zpos k)).
    { change 0 with (inject_Z 0). rewrite <- Zlt_Qlt. apply Z.pow_pos_nonneg; lia. }
    apply (proj2 (Qmult_lt_r _ _ _ HD)) in H.
    rewrite val_neg, <- inject_Z_mult, <- Zlt_Qlt in H. exact H.
Qed.

(** The number of hundredths is within half a hundredth of the value. *)
Lemma hundredths_near (m : positive) (e : Z) :
  Qabs (inject_Z (Z.of_N (hundredths m e)) * Qmake 1 100 - val (Zpos m) e) <= Qmake 1 200.
Proof.
  unfold hundredths. destruct e as [|k|k].
  - rewrite Z2N.id by lia. rewrite val_nonneg_exp by lia.
    replace (100 * Z.pos m * 2 ^ 0)%Z with (Z.pos m * 2 ^ 0 * 100)%Z by lia.
    rewrite (inject_Z_mult _ 100).
    set (v := inject_Z (Z.pos m * 2 ^ 0)).
    apply Qabs_Qle_condition. change (inject_Z 100) with 100. split; lra.
  - assert (0 < 2 ^ Zpos k)%Z by (apply Z.pow_pos_nonneg; lia).
    rewrite Z2N.id by nia. rewrite val_nonneg_exp by lia.
    replace (100 * Z.pos m * 2 ^ Zpos k)%Z with (Z.pos m * 2 ^ Zpos k * 100)%Z by lia.
    rewrite (inject_Z_mult _ 100).
    set (v := inject_Z (Z.pos m * 2 ^ Zpos k)).
    apply Qabs_Qle_condition. change (inject_Z 100) with 100. split; lra.
  - set (d := (2 ^ Zpos k)%Z).
    assert (Hd : (0 < d)%Z) by (apply Z.pow_pos_nonneg; lia).
    set (q := ((200 * Zpos m + d) / (2 * d))%Z).
    assert (Hq : (2 * d * q <= 200 * Zpos m + d < 2 * d * q + 2 * d)%Z).
    { pose proof (Z.div_mod (200 * Zpos m + d) (2 * d) ltac:(lia)) as E.
      pose proof (Z.mod_pos_bound (200 * Zpos m + d) (2 * d) ltac:(lia)) as B.
      fold q in E. lia. }
    assert (Hq0 : (0 <= q)%Z) by (apply Z.div_pos; lia).
    rewrite Z2N.id by exact Hq0.
    pose proof (val_neg (Zpos m) k) as HV. fold d in HV.
    set (V := val (Zpos m) (Zneg k)) in *.
    assert (HD : 0 < inject_Z d).
    { change 0 with (inject_Z 0). rewrite <- Zlt_Qlt. exact Hd. }
    set (D := inject_Z d) in *. set (Qq := inject_Z q) in *.
    set (M := inject_Z (Z.pos m)) in *.
    assert (Hq1 : 2 * D * Qq <= 200 * M + D).
    { unfold D, Qq, M. change 2 with (inject_Z 2). change 200 with (inject_Z 200).
      rewrite <- !inject_Z_mult, <- !inject_Z_plus, <- Zle_Qle. lia. }
    assert (Hq2 : 200 * M + D < 2 * D * Qq + 2 * D).
    { unfold D, Qq, M. change 2 with (inject_Z 2). change 200 with (inject_Z 200).
      rewrite <- !inject_Z_mult, <- !inject_Z_plus, <- Zlt_Qlt. lia. }
    assert (H1 : 2 * Qq <= 200 * V + 1).
    { apply (proj1 (Qmult_le_r _ _ D HD)).
      setoid_replace (2 * Qq * D) with (2 * D * Qq) by ring.
      setoid_replace ((200 * V + 1) * D) with (200 * (V * D) + D) by ring.
      rewrite HV. exact Hq1. }
    assert (H2 : 200 * V + 1 < 2 * Qq + 2).
    { apply (proj1 (Qmult_lt_r _ _ D HD)).
      setoid_replace ((2 * Qq + 2) * D) with (2 * D * Qq + 2 * D) by ring.
      setoid_replace ((200 * V + 1) * D) with (200 * (V * D) + D) by ring.
      rewrite HV. exact Hq2. }
    apply Qabs_Qle_condition. split; lra.
Qed.
End FormatValues.

Section FormatTheorems.
Import Format.
Variable Number_toString : float -> string.
Local Open Scope string_scope.

(** X1. For a finite number of magnitude below 10^21, [formatPercent]
    prints an optional minus sign (for a negative number), at least one
    digit, a point, exactly two digits and a percent sign; the digits
    read as a number of hundredths that is within half a hundredth of
    the magnitude. *)
Theorem formatPercent_two_decimals (x : float) :
  is_finite x = true -> (magnitude x < inject_Z (10 ^ 21))%Q ->
  exists (a b : string) (n : N),
    formatPercent Number_toString x =
      (match x with S754_finite true _ _ => "-" | _ => EmptyString end)
      ++ a ++ "." ++ b ++ "%"
    /\ String.length b = 2%nat /\ (1 <= String.length a)%nat
    /\ read_decimal (a ++ b) = Some n
    /\ (Qabs (inject_Z (Z.of_N n) * Qmake 1 100 - magnitude x) <= Qmake 1 200)%Q.
Proof.
  intros Hf Hlt.
  assert (Happ : forall s a b, ((s ++ a ++ "." ++ b) ++ "%") = s ++ a ++ "." ++ b ++ "%").
  { intros s a b. rewrite !string_append_assoc. reflexivity. }
  destruct x as [s|s| |s m e]; try discriminate.
  - destruct (point_spec (decimal 0)) as (a & b & Hp & Hb & Ha & Hab).
    exists a, b, 0%N. unfold formatPercent, toFixed_2. rewrite Hp.
    split; [apply (Happ EmptyString)|]. split; [exact Hb|]. split; [exact Ha|].
    split; [rewrite Hab; apply read_decimal_zeros|].
    cbn [magnitude]. vm_compute. discriminate.
  - cbn [magnitude] in Hlt |- *.
    destruct (point_spec (decimal (hundredths m e))) as (a & b & Hp & Hb & Ha & Hab).
    exists a, b, (hundredths m e). unfold formatPercent, toFixed_2.
    rewrite (at_least_1e21_false m e Hlt), Hp.
    split; [destruct s; apply Happ|]. split; [exact Hb|]. split; [exact Ha|].
    split; [rewrite Hab; apply read_decimal_zeros|].
    apply hundredths_near.
Qed.

(** X2. A number of magnitude below 0.005 prints as zero, and keeps its
    sign: a negative one is shown as -0.00%. *)
Theorem formatPercent_below_half_a_hundredth (s : bool) (m : positive) (e : Z) :
  (val (Zpos m) e < Qmake 1 200)%Q ->
  formatPercent Number_toString (S754_finite s m e) = (if s then "-0.00%" else "0.00%").
Proof.
  intros H.
  assert (Hn : hundredths m e = 0%N).
  { pose proof (hundredths_near m e) as Hn.
    apply Qabs_Qle_condition in Hn. destruct Hn as [_ Hn].
    destruct (hundredths m e) as [|q]; [reflexivity|].
    assert (1 <= inject_Z (Z.of_N (N.pos q)))%Q.
    { change 1%Q with (inject_Z 1). rewrite <- Zle_Qle. lia. }
    lra. }
  unfold formatPercent, toFixed_2.
  rewrite at_least_1e21_false, Hn; [destruct s; reflexivity|].
  eapply Qlt_trans; [exact H|]. vm_compute. reflexivity.
Qed.

Lemma formatPercent_not_finite (x : float) :
  is_finite x = false ->
  formatPercent Number_toString x = "NaN%" \/
  formatPercent Number_toString x = "Infinity%" \/
  formatPercent Number_toString x = "-Infinity%".
Proof.
  destruct x as [s|[]| |s m e]; try discriminate; intros _; auto.
Qed.
End FormatTheorems.

Section FormatReading.
Import Format.
Variable pow : float -> float -> float.
Variable Number_toString : float -> string.
Local Hint Extern 0 (NumberOps float) =>
  exact (Binary64.ops pow) : typeclass_instances.
Local Open Scope num_scope.
Local Open Scope string_scope.

Lemma capRate_zero_price (p : Property float) :
  is_zero (price p) = true -> is_finite (capRate (calculateMetrics p)) = false.
Proof.
  intros Hz. rewrite (capRate_eq p). cbv zeta.
  destruct (price p) as [s| | |]; try discriminate.
  apply fmul_100_not_finite, fdiv_zero_r.
Qed.

(** X3. For a property whose price is a zero, the cap rate that the
    card and the detail view show through [formatPercent] is one of
    NaN%, Infinity% and -Infinity%. *)
Theorem capRate_shown_at_zero_price (p : Property float) :
  is_zero (price p) = true ->
  let shown := formatPercent Number_toString (capRate (calculateMetrics p)) in
  shown = "NaN%" \/ shown = "Infinity%" \/ shown = "-Infinity%".
Proof.
  intros Hz shown. apply formatPercent_not_finite, capRate_zero_price, Hz.
Qed.
End FormatReading.

(** * More on [calculateMetrics] *)

Section Signs.
Lemma fmul_finite_rounded sx mx ex sy my ey :
  rounded (xorb sx sy) (fmul (S754_finite sx mx ex) (S754_finite sy my ey)).
Proof.
  unfold fmul, SFmul. apply binary_round_aux_rounded. lia.
Qed.

Lemma fmul_rounded s x my ey :
  rounded s x -> rounded s (fmul x (S754_finite false my ey)).
Proof.
  intros [|m e|].
  - destruct s; constructor.
  - replace s with (xorb s false) at 1 by (destruct s; reflexivity).
    apply fmul_finite_rounded.
  - destruct s; constructor.
Qed.

Lemma fgt_zero_rounded (x : float) :
  fgt x pzero = true -> rounded false x /\ is_zero x = false.
Proof.
  destruct x as [s|[]| |[] m e]; cbn; try discriminate; intros _; split;
    try constructor; reflexivity.
Qed.

Lemma rounded_false_not_lt (x : float) : rounded false x -> flt x pzero = false.
Proof. intros [|m e|]; reflexivity. Qed.

Lemma fdiv_by_positive s x t :
  rounded s x -> fgt t pzero = true ->
  is_nan (fdiv x t) = true \/ rounded s (fdiv x t).
Proof.
  intros Hx Ht. apply fgt_zero_rounded in Ht. destruct Ht as [Ht Hz].
  destruct Ht as [|m e|]; [discriminate| |].
  - right. replace s with (xorb s false) at 1 by (destruct s; reflexivity).
    apply fdiv_rounded, Hx.
  - destruct Hx as [|mx ex|].
    + right. destruct s; constructor.
    + right. destruct s; constructor.
    + left. reflexivity.
Qed.

Lemma fsub_finite_not_nan (x y : float) :
  is_finite x = true -> is_finite y = true -> is_nan (fsub x y) = false.
Proof.
  destruct x as [sx|sx| |sx mx ex]; try discriminate;
  destruct y as [sy|sy| |sy my ey]; try discriminate; intros _ _.
  - destruct sx, sy; reflexivity.
  - reflexivity.
  - reflexivity.
  - unfold fsub, SFsub, binary_normalize.
    destruct (_ - _)%Z as [|q|q]; [reflexivity| |].
    + pose proof (binary_round_rounded false q (Z.min ex ey)) as H.
      destruct H; reflexivity.
    + pose proof (binary_round_rounded true q (Z.min ex ey)) as H.
      destruct H; reflexivity.
Qed.

(** A zero divided by anything but a zero or NaN, and a zero times a
    finite number, are zeros. *)
Lemma fdiv_zero_l (x d : float) :
  is_zero x = true -> is_zero d = false -> is_nan d = false -> is_zero (fdiv x d) = true.
Proof.
  destruct x; try discriminate; destruct d; try discriminate; reflexivity.
Qed.

Lemma fmul_zero_l (x y : float) :
  is_zero x = true -> is_finite y = true -> is_zero (fmul x y) = true.
Proof.
  destruct x; try discriminate; destruct y; try discriminate; reflexivity.
Qed.

Lemma fsub_same (x : float) :
  is_finite x = true -> fsub x x = pzero.
Proof.
  destruct x as [s|s| |s m e]; try discriminate; intros _.
  - destruct s; reflexivity.
  - unfold fsub, SFsub. rewrite Z.sub_diag. reflexivity.
Qed.
End Signs.

Section Unit.
Local Open Scope Q_scope.

Lemma floor_at_unique (m n e : Z) : floor_at (val n e) m e -> m = n.
Proof.
  intros (_ & H1 & H2).
  apply val_le_inv in H1. apply val_lt_inv in H2. lia.
Qed.

Lemma loc_of_shr_record_exact (mrs : shr_record) :
  shr_r mrs || shr_s mrs = false -> loc_of_shr_record mrs = loc_Exact.
Proof. destruct mrs as [m [] []]; cbn; congruence. Qed.

(** Rounding a mantissa that only carries zeros below the exponent of
    the format gives the number back. *)
Lemma binary_round_aux_canonical (s : bool) (mp : positive) (ep : Z) (k : Z) :
  bounded prec emax mp ep = true -> (0 <= k)%Z ->
  binary_round_aux prec emax s (Zpos mp * 2 ^ k) (ep - k) loc_Exact = S754_finite s mp ep.
Proof.
  intros Hb Hk. destruct (bounded_canonical _ _ Hb) as [Hc HeP].
  set (m := (Zpos mp * 2 ^ k)%Z). set (e := (ep - k)%Z).
  assert (Hm : (0 <= m)%Z) by (unfold m; nia).
  assert (HX : val m e == val (Zpos mp) ep).
  { unfold m, e. rewrite val_shift by lia. replace (ep - k + k)%Z with ep by lia. reflexivity. }
  assert (Hd : (Zdigits2 m + e = Zpos (digits2_pos mp) + ep)%Z).
  { unfold m, e. destruct k as [|k|k]; try lia.
    - rewrite Z.mul_1_r. cbn [Zdigits2]. lia.
    - rewrite <- iter_xO_val. cbn [Zdigits2]. rewrite digits2_pos_iter_xO. lia. }
  unfold binary_round_aux.
  pose proof (floor_at_shr_fexp (val m e) m e loc_Exact (floor_at_exact m e Hm)) as H1.
  assert (Hex : loc_Exact <> loc_Exact -> val m e < val m e) by congruence.
  destruct (shr_fexp_spec (val m e) m e loc_Exact Hm (Qle_refl _) Hex) as (Hbelow & He' & _).
  destruct (shr_fexp prec emax m e loc_Exact) as [mrs' e']. cbn [fst snd] in *.
  rewrite Hd, Hc in He'.
  assert (E' : e' = ep) by (unfold e in He'; lia). clear He'. subst e'.
  assert (H1' : floor_at (val (Zpos mp) ep) (shr_m mrs') ep).
  { destruct H1 as (A & B & C). split; [exact A|]. rewrite <- HX. split; assumption. }
  apply floor_at_unique in H1'.
  destruct Hbelow as (_ & _ & Hlt).
  assert (Hrs : shr_r mrs' || shr_s mrs' = false).
  { destruct (shr_r mrs' || shr_s mrs') eqn:E; [|reflexivity].
    specialize (Hlt eq_refl). rewrite H1', HX in Hlt. lra. }
  rewrite (loc_of_shr_record_exact _ Hrs), H1'. cbn [round_nearest_even].
  rewrite (shr_fexp_id (Zpos mp) ep loc_Exact) by (cbn [Zdigits2]; lia).
  cbn [shr_record_of_loc shr_m].
  apply Z.leb_le in HeP. rewrite HeP. reflexivity.
Qed.

(** A number of the format times 1 is the number. *)
Lemma fmul_one (x : float) :
  valid x = true -> fmul x (S754_finite false one_m (-52)) = x.
Proof.
  destruct x as [s|s| |s m e]; intros Hv; try (destruct s; reflexivity); try reflexivity.
  unfold fmul, SFmul. rewrite xorb_false_r.
  change (Zpos (m * one_m)) with (Zpos m * 2 ^ 52)%Z.
  change (e + -52)%Z with (e - 52)%Z.
  apply binary_round_aux_canonical; [exact Hv | lia].
Qed.
End Unit.

Section MoreReading.
Variable pow : float -> float -> float.
Local Hint Extern 0 (NumberOps float) =>
  exact (Binary64.ops pow) : typeclass_instances.
Local Open Scope num_scope.

Lemma return_signed (s : bool) (cf t : float) :
  rounded s cf -> (t >? #0) = true ->
  is_nan (cf * #12 / t * #100) = true \/ rounded s (cf * #12 / t * #100).
Proof.
  intros Hcf Ht.
  change (is_nan (fmul (fdiv (fmul cf (flit 12)) t) (flit 100)) = true \/
          rounded s (fmul (fdiv (fmul cf (flit 12)) t) (flit 100))).
  change (fgt t (flit 0) = true) in Ht. rewrite flit_0 in Ht.
  rewrite flit_12, flit_100.
  pose proof (fmul_rounded s cf 6755399441055744 (-49) Hcf) as H1.
  destruct (fdiv_by_positive s _ t H1 Ht) as [H2|H2].
  - left. destruct (fdiv _ t); try discriminate. reflexivity.
  - right. apply fmul_rounded, H2.
Qed.

(** X4. The cash-on-cash return never has the sign opposite to the cash
    flow's: with a positive monthly cash flow it is not below zero, and
    with a negative one it is not above zero, whatever the inputs. *)
Theorem cashOnCash_sign (p : Property float) :
  let r := calculateMetrics p in
  (fgt (cashFlow r) #0 = true -> flt (cashOnCashReturn r) #0 = false)
  /\ (flt (cashFlow r) #0 = true -> fgt (cashOnCashReturn r) #0 = false).
Proof.
  intros r. unfold r. rewrite (cashOnCashReturn_eq p). cbv zeta.
  generalize (cashFlow (calculateMetrics p)) (totalInvestment (calculateMetrics p)).
  intros cf t.
  destruct (t >? #0)%num eqn:Ht.
  - change (@lit float _ 0) with (flit 0). rewrite flit_0.
    split; intros H.
    + apply fgt_zero_rounded in H. destruct H as [H _].
      destruct (return_signed false cf t H Ht) as [N|R].
      * destruct (cf * #12 / t * #100)%num; try discriminate. reflexivity.
      * apply rounded_false_not_lt, R.
    + apply flt_zero_rounded in H.
      destruct (return_signed true cf t H Ht) as [N|R].
      * destruct (cf * #12 / t * #100)%num; try discriminate. reflexivity.
      * apply rounded_true_le, R.
  - split; intros _; reflexivity.
Qed.

Lemma percent_100 : fdiv (flit 100) (flit 100) = S754_finite false one_m (-52).
Proof. vm_compute. reflexivity. Qed.

Lemma downPayment_full (p : Property float) :
  valid (price p) = true -> downPaymentPercent p = #100 -> downPayment p = price p.
Proof.
  intros Hv Hd. unfold downPayment. rewrite Hd.
  change (fmul (price p) (fdiv (flit 100) (flit 100)) = price p).
  rewrite percent_100. apply (fmul_one _ Hv).
Qed.

(** X5. With a down payment of 100 percent on a finite price the down
    payment is the price and nothing is borrowed: the loan amount is +0,
    the investment is the price plus the closing costs, and the monthly
    payment is a zero, in the branch without interest when the number of
    payments is neither zero nor NaN, and in the annuity branch when
    the rate and [(1+r)^n] are finite and [(1+r)^n - 1] is not zero. *)
Theorem full_down_payment (p : Property float) :
  let r := calculateMetrics p in
  let P := Math_pow (#1 + monthlyRate p) (numberOfPayments p) in
  valid (price p) = true -> is_finite (price p) = true ->
  downPaymentPercent p = #100 ->
  loanAmount p = pzero
  /\ totalInvestment r = price p + price p * #0.03
  /\ ((monthlyRate p >? #0) = false ->
      is_zero (numberOfPayments p) = false -> is_nan (numberOfPayments p) = false ->
      is_zero (monthlyMortgage r) = true)
  /\ ((monthlyRate p >? #0) = true -> is_finite (monthlyRate p) = true ->
      is_finite P = true -> is_zero (P - #1) = false ->
      is_zero (monthlyMortgage r) = true).
Proof.
  intros r P Hv Hf Hd.
  assert (Hl : loanAmount p = pzero).
  { unfold loanAmount. rewrite (downPayment_full p Hv Hd). apply (fsub_same _ Hf). }
  split; [exact Hl|]. split.
  { unfold r. rewrite totalInvestment_eq, (downPayment_full p Hv Hd). reflexivity. }
  unfold r. rewrite monthlyMortgage_eq, Hl. fold P. split.
  - intros -> Hz Hn. apply fdiv_zero_l; [reflexivity | exact Hz | exact Hn].
  - intros -> Hr HP HD.
    apply fdiv_zero_l; [|exact HD|].
    + apply fmul_zero_l; [|exact HP]. apply fmul_zero_l; [reflexivity | exact Hr].
    + apply fsub_finite_not_nan; [exact HP | reflexivity].
Qed.
End MoreReading.

(** * The property the dialog adds *)

Section AddPropertyFacts.
Variable pow : float -> float -> float.
Local Hint Extern 0 (NumberOps float) =>
  exact (Binary64.ops pow) : typeclass_instances.
Local Open Scope num_scope.
Local Open Scope string_scope.

Lemma or_else_truthy (v : option float) (d : float) :
  ftruthy d = true -> ftruthy (or_else v d) = true.
Proof.
  intros Hd. destruct v as [x|]; cbn; [|exact Hd].
  destruct (ftruthy x) eqn:E; [exact E | exact Hd].
Qed.

Lemma or_else_zero_not_nan (v : option float) : is_nan (or_else v #0) = false.
Proof.
  destruct v as [x|]; cbn; [|reflexivity].
  destruct x; reflexivity.
Qed.

(** Constants of the dialog. *)
Lemma rate_6_8_positive : fgt (fdiv (fdiv (flit 6.8) (flit 100)) (flit 12)) (flit 0) = true.
Proof. vm_compute. reflexivity. Qed.

Lemma term_30_years : fmul (flit 30) (flit 12) = flit 360.
Proof. vm_compute. reflexivity. Qed.

Lemma percent_20 : fdiv (flit 20) (flit 100) = flit 0.2.
Proof. vm_compute. reflexivity. Qed.

Lemma truthy_literals :
  ftruthy (flit 450000) = true /\ ftruthy (flit 3) = true /\ ftruthy (flit 2) = true /\
  ftruthy (flit 1500) = true /\ ftruthy (flit 200) = true /\ ftruthy (flit 60) = true /\
  ftruthy (flit 5000) = true /\ ftruthy (flit 300) = true.
Proof. vm_compute. repeat split; reflexivity. Qed.

(** X6. Whatever the answer holds, the property that [handleSearch]
    builds has a price, bedrooms, bathrooms, an area, a nightly rate, an
    occupancy rate, a property tax, an insurance and utilities that are
    neither zero nor NaN, and a snow removal, an HOA fee and a hot tub
    maintenance that are present and not NaN: [calculateMetrics] never
    divides by a zero price on it and never meets a missing field. *)
Theorem newProperty_numbers (now query : string) (data : Listing float) :
  let p := newProperty now query data in
  ftruthy (price p) = true /\ ftruthy (bedrooms p) = true /\ ftruthy (bathrooms p) = true
  /\ ftruthy (sqft p) = true /\ ftruthy (nightlyRate p) = true
  /\ ftruthy (occupancyRate p) = true /\ ftruthy (propertyTax p) = true
  /\ ftruthy (insurance p) = true /\ ftruthy (utilities p) = true
  /\ is_nan (snowRemoval p) = false /\ is_nan (hoa p) = false
  /\ (exists h, hotTubMaintenance p = Some h /\ is_nan h = false).
Proof.
  destruct truthy_literals as (L1 & L2 & L3 & L4 & L5 & L6 & L7 & L8).
  cbn [newProperty price bedrooms bathrooms sqft nightlyRate occupancyRate propertyTax
       insurance utilities snowRemoval hoa hotTubMaintenance].
  repeat split; try (apply or_else_truthy; assumption); try apply or_else_zero_not_nan.
  eexists. split; [reflexivity | apply or_else_zero_not_nan].
Qed.

(** X7. On every property that [handleSearch] builds, [calculateMetrics]
    takes the annuity branch: the monthly rate 6.8/100/12 is positive
    and the payment is the annuity over 360 months on the price less 20
    percent. *)
Theorem newProperty_mortgage (now query : string) (data : Listing float) :
  let p := newProperty now query data in
  let loan := price p - price p * #0.2 in
  let r := #6.8 / #100 / #12 in
  (r >? #0) = true
  /\ monthlyMortgage (calculateMetrics p) =
     (loan * r * Math_pow (#1 + r) #360) / (Math_pow (#1 + r) #360 - #1).
Proof.
  intros p loan r. split; [exact rate_6_8_positive|].
  unfold p. rewrite monthlyMortgage_eq.
  unfold monthlyRate, numberOfPayments, loanAmount, downPayment.
  cbn [newProperty price interestRate loanTermYears downPaymentPercent].
  fold r.
  change (r >? #0) with (fgt (fdiv (fdiv (flit 6.8) (flit 100)) (flit 12)) (flit 0)).
  rewrite rate_6_8_positive.
  change (#30 * #12) with (fmul (flit 30) (flit 12)). rewrite term_30_years.
  change (#20 / #100) with (fdiv (flit 20) (flit 100)). rewrite percent_20.
  reflexivity.
Qed.

(** X8. The images of the property that [handleSearch] builds are
    exactly the entries of [data.images] that are longer than 10 code
    units and start with http or data:; there is none when [data.images]
    is missing or not an array. *)
Theorem newProperty_images (now query : string) (data : Listing float) (url : string) :
  In url (images (newProperty now query data)) <->
  (exists urls, l_images data = Some urls /\ In url urls)
  /\ (10 < String.length url)%nat
  /\ (prefix "http" url = true \/ prefix "data:" url = true).
Proof.
  cbn [newProperty images]. rewrite filter_In. unfold goodUrl.
  rewrite !andb_true_iff, orb_true_iff, Nat.ltb_lt, negb_true_iff, String.eqb_neq.
  destruct (l_images data) as [urls|]; split.
  - intros (Hin & (Hne & Hlen) & Hp). split; [exists urls; auto | auto].
  - intros ((urls' & E & Hin) & Hlen & Hp). injection E as <-.
    split; [exact Hin|]. split; [|exact Hp]. split; [|exact Hlen].
    intros ->. simpl in Hlen. lia.
  - intros ([] & _).
  - intros ((urls' & E & _) & _). discriminate.
Qed.

(** X9. When the request of [fetchPropertyListing] is rejected, or its
    answer does not parse, the zeros of the fallback are replaced by the
    defaults of the dialog: the property added is the default one, at
    450000 with 200 a night at 60 percent, under the query as its
    address, or under "New Property Listing" when the query is a link. *)
Theorem failed_fetch_adds_defaults
    (JSON_parse : string -> option (Listing float))
    (now query : string) (response : option (option string)) :
  response = None \/
  (exists text, response = Some text /\ JSON_parse (Text.listingText text) = None) ->
  newProperty now query (fetchPropertyListing JSON_parse response query) =
  {| id := now;
     address := if prefix "http" query then "New Property Listing" else query;
     price := #450000; images := [];
     bedrooms := #3; bathrooms := #2; sqft := #1500;
     downPaymentPercent := #20; interestRate := #6.8; loanTermYears := #30;
     nightlyRate := #200; occupancyRate := #60;
     propertyTax := #5000; insurance := #1500; managementFeePercent := #25;
     snowRemoval := #0; hotTubMaintenance := Some #0;
     utilities := #300; maintenance := #250; hoa := #0; otherExpenses := #0;
     aiDescription := None;
     fairOfferRecommendation :=
       Some "Could not automatically fetch details. Please verify the address or link.";
     isFavorite := None |}.
Proof.
  intros H.
  assert (E : fetchPropertyListing JSON_parse response query = fallbackListing query).
  { destruct H as [->|(text & -> & Hp)]; [reflexivity|].
    unfold fetchPropertyListing. rewrite Hp. reflexivity. }
  rewrite E. unfold newProperty, fallbackListing.
  cbn [l_address l_price l_bedrooms l_bathrooms l_sqft l_propertyTax l_hoa l_nightlyRate
       l_occupancyRate l_insurance l_snowRemoval l_hotTubMaintenance l_utilities
       l_fairOfferRecommendation l_images filter].
  assert (Z : forall d : float, or_else (Some #0) d = d).
  { intros d. apply or_else_falsy. reflexivity. }
  rewrite !Z. f_equal.
  destruct (prefix "http" query); [reflexivity|]. destruct query; reflexivity.
Qed.
End AddPropertyFacts.

(** * The text handed to [JSON.parse] *)

Section TextFacts.
Import Text.
Local Open Scope string_scope.

Lemma free_part (pat s x u y : string) : free pat s -> s = x ++ u ++ y -> free pat u.
Proof.
  intros Hs E a b Hu. apply (Hs (x ++ a) (b ++ y)).
  rewrite E, Hu, !string_append_assoc. reflexivity.
Qed.

(** Trimming and cutting give parts of the string. *)
Lemma trimStart_part (s : string) : exists x, s = x ++ trimStart s.
Proof.
  induction s as [|c s [x IH]]; simpl.
  - exists EmptyString. reflexivity.
  - destruct (is_space c).
    + exists (String c x). simpl. rewrite <- IH. reflexivity.
    + exists EmptyString. reflexivity.
Qed.

Lemma trimEnd_part (s : string) : exists y, s = trimEnd s ++ y.
Proof.
  induction s as [|c s [y IH]]; simpl.
  - exists EmptyString. reflexivity.
  - destruct (trimEnd s) as [|d t] eqn:E.
    + destruct (is_space c).
      * exists (String c s). reflexivity.
      * exists s. reflexivity.
    + exists y. simpl. f_equal. exact IH.
Qed.

Lemma trim_part (s : string) : exists x y, s = x ++ trim s ++ y.
Proof.
  unfold trim. destruct (trimStart_part s) as [x Ex].
  destruct (trimEnd_part (trimStart s)) as [y Ey].
  exists x, y. rewrite <- Ey. exact Ex.
Qed.

Lemma outermost_part (open close : ascii) (s : string) :
  exists x y, s = x ++ outermost open close s ++ y.
Proof.
  unfold outermost, js_substring.
  destruct (indexOf open s) as [i|]; [destruct (lastIndexOf close s) as [j|]|].
  - apply substring_part.
  - exists EmptyString, EmptyString. rewrite string_append_nil. reflexivity.
  - exists EmptyString, EmptyString. rewrite string_append_nil. reflexivity.
Qed.

(** Removing the fences leaves none. *)
Lemma occurs_append (pat a b : string) : occurs pat (a ++ pat ++ b) = true.
Proof.
  induction a as [|c a IH].
  - simpl append. pose proof (prefix_append pat b) as H.
    destruct (pat ++ b); cbn [occurs]; rewrite H; reflexivity.
  - cbn [append occurs]. rewrite IH. apply orb_true_r.
Qed.

Lemma free_occurs (pat s : string) : occurs pat s = false -> free pat s.
Proof.
  intros H a b E. rewrite E, occurs_append in H. discriminate.
Qed.

Lemma remove_fence (rest : string) :
  remove_all "```" ("```" ++ rest) = remove_all "```" rest.
Proof.
  unfold remove_all. pose proof (prefix_append "```" rest) as H.
  cbn [append] in *. cbn [remove_from]. rewrite H. reflexivity.
Qed.

Lemma prefix_fence (s : string) :
  prefix "```" s = true -> exists rest, s = "```" ++ rest.
Proof.
  destruct s as [|a s]; [discriminate|].
  destruct (ascii_dec a "`") as [->|N]; [|rewrite prefix_other by exact N; discriminate].
  rewrite prefix_cons.
  destruct s as [|b s]; [discriminate|].
  destruct (ascii_dec b "`") as [->|N]; [|rewrite prefix_other by exact N; discriminate].
  rewrite prefix_cons.
  destruct s as [|c s]; [discriminate|].
  destruct (ascii_dec c "`") as [->|N]; [|rewrite prefix_other by exact N; discriminate].
  intros _. exists s. reflexivity.
Qed.

Lemma remove_other (c : ascii) (s : string) :
  prefix "```" (String c s) = false ->
  remove_all "```" (String c s) = String c (remove_all "```" s).
Proof. unfold remove_all. cbn [remove_from]. intros ->. reflexivity. Qed.

Lemma prefix_1 (s : string) : prefix "`" s = starts backtick s.
Proof.
  destruct s as [|a s]; [reflexivity|]. cbn [starts].
  destruct (ascii_dec a "`") as [->|N].
  - rewrite prefix_cons, prefix_nil. reflexivity.
  - rewrite prefix_other by exact N. symmetry. apply Ascii.eqb_neq. exact N.
Qed.

Lemma remove_starts (s : string) :
  starts backtick s = false -> starts backtick (remove_all "```" s) = false.
Proof.
  destruct s as [|a s]; [reflexivity|]. cbn [starts]. intros H.
  rewrite remove_other; [exact H|].
  apply prefix_other. apply Ascii.eqb_neq. exact H.
Qed.

Lemma remove_two (s : string) :
  prefix "``" s = false -> prefix "``" (remove_all "```" s) = false.
Proof.
  destruct s as [|a s]; [reflexivity|]. intros H.
  destruct (ascii_dec a "`") as [->|N].
  - rewrite prefix_cons in H.
    assert (P : prefix "```" (String "`" s) = false).
    { rewrite prefix_cons. destruct s as [|b s]; [reflexivity|].
      destruct (ascii_dec b "`") as [->|N]; [|apply prefix_other, N].
      rewrite prefix_cons, prefix_nil in H. discriminate. }
    rewrite (remove_other _ _ P), prefix_cons, prefix_1.
    apply remove_starts. rewrite <- prefix_1. exact H.
  - rewrite remove_other by (apply prefix_other; exact N).
    apply prefix_other. exact N.
Qed.

Lemma remove_all_occurs (n : nat) : forall s : string,
  (String.length s <= n)%nat -> occurs "```" (remove_all "```" s) = false.
Proof.
  induction n as [|n IH]; intros s Hn.
  - destruct s; [reflexivity | simpl in Hn; lia].
  - destruct s as [|c s]; [reflexivity|].
    destruct (prefix "```" (String c s)) eqn:P.
    + destruct (prefix_fence _ P) as [rest E]. rewrite E, remove_fence.
      apply IH. rewrite E in Hn. simpl in Hn. lia.
    + rewrite (remove_other _ _ P). cbn [occurs].
      rewrite (IH s) by (simpl in Hn; lia). rewrite orb_false_r.
      destruct (ascii_dec c "`") as [->|N].
      * rewrite prefix_cons in *. apply remove_two, P.
      * apply prefix_other, N.
Qed.

Lemma remove_all_free (s : string) : free "```" (remove_all "```" s).
Proof. apply free_occurs, (remove_all_occurs (String.length s) s), le_n. Qed.

Lemma stripFences_free (text : string) : free "```" (stripFences text).
Proof.
  unfold stripFences.
  destruct (trim_part (remove_all "```" (remove_all "```json" text))) as (x & y & E).
  exact (free_part _ _ _ _ _ (remove_all_free _) E).
Qed.

(** X10. Whatever the model answers, the text that
    [fetchListingsByCity] and [fetchPropertyListing] hand to
    [JSON.parse] contains no code fence: three backticks in a row never
    occur in it. *)
Theorem no_fence_reaches_the_parser (response : option string) :
  free "```" (listingsText response) /\ free "```" (listingText response).
Proof.
  split; unfold listingsText, listingText.
  - set (text := match response with Some EmptyString | None => "[]" | Some t => t end).
    destruct (outermost_part "[" "]" (stripFences text)) as (x & y & E).
    exact (free_part _ _ _ _ _ (stripFences_free text) E).
  - set (text := match response with Some EmptyString | None => "{}" | Some t => t end).
    destruct (outermost_part "{" "}" (stripFences text)) as (x & y & E).
    exact (free_part _ _ _ _ _ (stripFences_free text) E).
Qed.

(** The first and the last occurrence of a character. *)
Lemma indexOf_append_none (c : ascii) (a b : string) :
  indexOf c a = None -> indexOf c b = None -> indexOf c (a ++ b) = None.
Proof.
  intros Ha Hb. induction a as [|x a IH]; [exact Hb|].
  cbn [append indexOf] in *. destruct (Ascii.eqb x c); [discriminate|].
  destruct (indexOf c a); [discriminate|]. rewrite IH; reflexivity.
Qed.

Lemma indexOf_first (c : ascii) (a rest : string) :
  indexOf c a = None -> indexOf c (a ++ String c rest) = Some (String.length a).
Proof.
  intros Ha. induction a as [|x a IH].
  - cbn. rewrite Ascii.eqb_refl. reflexivity.
  - cbn [append indexOf String.length] in *. destruct (Ascii.eqb x c); [discriminate|].
    destruct (indexOf c a); [discriminate|]. rewrite IH; reflexivity.
Qed.

Lemma lastIndexOf_none (c : ascii) (b : string) :
  indexOf c b = None -> lastIndexOf c b = None.
Proof.
  induction b as [|x b IH]; [reflexivity|]. cbn [indexOf lastIndexOf].
  destruct (Ascii.eqb x c); [discriminate|].
  destruct (indexOf c b); [discriminate|]. intros _. rewrite IH; reflexivity.
Qed.

Lemma lastIndexOf_last (c : ascii) (x b : string) :
  indexOf c b = None -> lastIndexOf c (x ++ String c b) = Some (String.length x).
Proof.
  intros Hb. induction x as [|d x IH].
  - cbn. rewrite (lastIndexOf_none c b Hb), Ascii.eqb_refl. reflexivity.
  - cbn [append lastIndexOf String.length]. rewrite IH. reflexivity.
Qed.

(** X11. When the cleaned answer holds an opening bracket with none
    before it and later a closing bracket with none after it, what is
    parsed is the text from the one to the other, both included:
    whatever surrounds the outermost brackets is dropped. *)
Theorem outermost_brackets (open close : ascii) (a mid b : string) :
  indexOf open a = None -> indexOf close b = None ->
  outermost open close (a ++ String open (mid ++ String close b)) =
  String open (mid ++ String close EmptyString).
Proof.
  intros Ha Hb. unfold outermost.
  rewrite (indexOf_first open a _ Ha).
  replace (a ++ String open (mid ++ String close b))
    with ((a ++ String open mid) ++ String close b)
    by (rewrite string_append_assoc; reflexivity).
  rewrite (lastIndexOf_last close _ b Hb), string_length_append.
  unfold js_substring. cbn [String.length].
  replace (Nat.min _ _) with (String.length a) by lia.
  replace (Nat.max _ _ - String.length a)%nat
    with (String.length (String open (mid ++ String close EmptyString))).
  - replace ((a ++ String open mid) ++ String close b)
      with (a ++ String open (mid ++ String close EmptyString) ++ b).
    + apply substring_middle.
    + cbn [append]. rewrite !string_append_assoc. reflexivity.
  - cbn [String.length]. rewrite string_length_append. cbn [String.length]. lia.
Qed.

(** X12. When the last closing bracket of the cleaned answer comes
    before its first opening bracket, [substring] swaps its two ends and
    what is parsed is the text strictly between the two, which holds
    neither bracket. *)
Theorem outermost_brackets_swapped (open close : ascii) (a mid b : string) :
  indexOf open a = None -> indexOf open mid = None -> open <> close ->
  indexOf close mid = None -> indexOf close b = None ->
  outermost open close (a ++ String close (mid ++ String open b)) = mid.
Proof.
  intros Ha Hm Hoc Hcm Hb. unfold outermost.
  assert (Hc1 : indexOf open (a ++ String close mid) = None).
  { apply indexOf_append_none; [exact Ha|]. cbn [indexOf].
    destruct (Ascii.eqb_spec close open); [congruence|]. rewrite Hm. reflexivity. }
  assert (Hc2 : indexOf close (mid ++ String open b) = None).
  { apply indexOf_append_none; [exact Hcm|]. cbn [indexOf].
    destruct (Ascii.eqb_spec open close); [congruence|]. rewrite Hb. reflexivity. }
  rewrite (lastIndexOf_last close a _ Hc2).
  replace (a ++ String close (mid ++ String open b))
    with ((a ++ String close mid) ++ String open b)
    by (rewrite string_append_assoc; reflexivity).
  rewrite (indexOf_first open _ b Hc1), string_length_append.
  unfold js_substring. cbn [String.length].
  replace (Nat.min _ _) with (String.length (a ++ String close EmptyString)).
  - replace (Nat.max _ _ - _)%nat with (String.length mid).
    + replace ((a ++ String close mid) ++ String open b)
        with ((a ++ String close EmptyString) ++ mid ++ String open b).
      * apply substring_middle.
      * rewrite !string_append_assoc. reflexivity.
    + rewrite string_length_append. cbn [String.length]. lia.
  - rewrite string_length_append. cbn [String.length]. lia.
Qed.
End TextFacts.

(** * Images: the edited image and the payload of a data URL *)

Section MediaFacts.
Import Text Media.
Local Open Scope string_scope.

Lemma firstImage_skips (before after : list Part) :
  forallb no_image before = true -> firstImage (before ++ after)%list = firstImage after.
Proof.
  induction before as [|part before IH]; intros H; [reflexivity|].
  cbn [forallb] in H. apply andb_true_iff in H. destruct H as [H1 H2].
  cbn [app firstImage]. unfold no_image in H1.
  destruct (inlineImage part); [discriminate|]. apply IH, H2.
Qed.

(** X13. [editPropertyImage] returns the data URL of the first part that
    carries inline data that is not empty, whatever parts without it
    come first; when no part carries any it throws "No image
    generated". *)
Theorem editPropertyImage_first_image (before after : list Part) (part : Part) (d : string) :
  forallb no_image before = true ->
  (inlineImage part = Some d ->
   editPropertyImage (inr (Some (before ++ part :: after)%list)) =
   inl ("data:image/png;base64," ++ d))
  /\ editPropertyImage (inr (Some before)) = inr "No image generated".
Proof.
  intros H. split.
  - intros Hd. unfold editPropertyImage. rewrite (firstImage_skips _ _ H).
    cbn [firstImage]. rewrite Hd. reflexivity.
  - unfold editPropertyImage.
    pose proof (firstImage_skips before [] H) as E. rewrite app_nil_r in E.
    rewrite E. reflexivity.
Qed.

Lemma split_none (sep : ascii) (s : string) :
  indexOf sep s = None -> split sep s = [s].
Proof.
  induction s as [|c s IH]; [reflexivity|]. cbn [indexOf split].
  destruct (Ascii.eqb c sep); [discriminate|].
  destruct (indexOf sep s); [discriminate|]. intros _. rewrite IH; reflexivity.
Qed.

Lemma split_first (sep : ascii) (a b : string) :
  indexOf sep a = None -> split sep (a ++ String sep b) = a :: split sep b.
Proof.
  induction a as [|c a IH]; intros H.
  - cbn. rewrite Ascii.eqb_refl. reflexivity.
  - cbn [indexOf] in H. cbn [append split].
    destruct (Ascii.eqb c sep); [discriminate|].
    destruct (indexOf sep a); [discriminate|]. rewrite IH; reflexivity.
Qed.

(** X14. [getBase64FromUrl] reads the payload of a data URL: for a
    header and a content without a comma it returns the content of
    header,content, in particular the data of the URL that
    [editPropertyImage] builds; for a string without a comma it returns
    [undefined]. *)
Theorem payload_of_data_url (header content : string) :
  indexOf "," content = None ->
  (indexOf "," header = None ->
   payload (header ++ String "," content) = Some content /\ payload header = None)
  /\ payload ("data:image/png;base64," ++ content) = Some content.
Proof.
  intros Hc.
  assert (G : forall h, indexOf "," h = None ->
              payload (h ++ String "," content) = Some content).
  { intros h Hh. unfold payload.
    rewrite (split_first "," h content Hh), (split_none "," content Hc). reflexivity. }
  split.
  - intros Hh. split; [apply G, Hh|].
    unfold payload. rewrite (split_none "," header Hh). reflexivity.
  - apply (G "data:image/png;base64"). reflexivity.
Qed.
End MediaFacts.

(** * The gallery *)

Section GalleryFacts.
Context {num : Type}.
Import Gallery.
Local Open Scope Z_scope.

Lemma nextImage_in_gallery (p : Property num) (i : Z) :
  images p <> [] -> 0 <= i -> in_gallery p (nextImage p i).
Proof.
  intros Hne Hi. unfold in_gallery, nextImage.
  destruct (images p) as [|x l]; [congruence|].
  set (n := Z.of_nat (List.length (x :: l))).
  assert (0 < n) by (unfold n; simpl List.length; lia).
  destruct (Z.eqb_spec n 0); [lia|].
  rewrite Z.rem_mod_nonneg by lia. apply Z.mod_pos_bound; lia.
Qed.

Lemma prevImage_in_gallery (p : Property num) (i : Z) :
  images p <> [] -> 0 <= i -> in_gallery p (prevImage p i).
Proof.
  intros Hne Hi. unfold in_gallery, prevImage.
  destruct (images p) as [|x l]; [congruence|].
  set (n := Z.of_nat (List.length (x :: l))).
  assert (0 < n) by (unfold n; simpl List.length; lia).
  destruct (Z.eqb_spec n 0); [lia|].
  rewrite Z.rem_mod_nonneg by lia. apply Z.mod_pos_bound; lia.
Qed.

(** X15. With at least one image, [nextImage] and [prevImage] take any
    index that is not negative, in the gallery or past its end, to an
    index of an image. *)
Theorem gallery_index_in_range (p : Property num) (i : Z) :
  images p <> [] -> 0 <= i ->
  in_gallery p (nextImage p i) /\ in_gallery p (prevImage p i).
Proof.
  intros Hne Hi. split; [apply nextImage_in_gallery | apply prevImage_in_gallery]; assumption.
Qed.

(** X16. On an index of an image, [prevImage] undoes [nextImage] and
    [nextImage] undoes [prevImage], around the two ends as well. *)
Theorem gallery_round_trip (p : Property num) (i : Z) :
  in_gallery p i ->
  prevImage p (nextImage p i) = i /\ nextImage p (prevImage p i) = i.
Proof.
  unfold in_gallery, prevImage, nextImage. intros Hi.
  set (n := Z.of_nat (List.length (images p))) in *.
  destruct (Z.eqb_spec n 0); [lia|].
  split.
  - destruct (Z.eq_dec (i + 1) n) as [E|E].
    + rewrite E, Z.rem_same by lia.
      replace (0 - 1 + n) with (n - 1) by lia. rewrite Z.rem_small; lia.
    + rewrite (Z.rem_small (i + 1)) by lia.
      replace (i + 1 - 1 + n) with (i + 1 * n) by lia.
      rewrite Z.rem_mod_nonneg by lia. rewrite Z.mod_add by lia. apply Z.mod_small; lia.
  - destruct (Z.eq_dec i 0) as [E|E].
    + subst i. replace (0 - 1 + n) with (n - 1) by lia.
      rewrite (Z.rem_small (n - 1)) by lia. replace (n - 1 + 1) with n by lia.
      apply Z.rem_same; lia.
    + replace (i - 1 + n) with (i - 1 + 1 * n) by lia.
      rewrite (Z.rem_mod_nonneg (i - 1 + 1 * n)) by lia.
      rewrite Z.mod_add by lia. rewrite Z.mod_small by lia.
      replace (i - 1 + 1) with i by lia. apply Z.rem_small; lia.
Qed.

Lemma nextImage_iter (p : Property num) (k : nat) : forall i : Z,
  in_gallery p i ->
  Nat.iter k (nextImage p) i = (i + Z.of_nat k) mod Z.of_nat (List.length (images p)).
Proof.
  unfold in_gallery. set (n := Z.of_nat (List.length (images p))).
  induction k as [|k IH]; intros i Hi.
  - change (Nat.iter 0 (nextImage p) i) with i.
    rewrite Z.add_0_r, Z.mod_small; [reflexivity | exact Hi].
  - rewrite Nat.iter_succ, (IH i Hi). unfold nextImage. fold n.
    destruct (Z.eqb_spec n 0); [lia|].
    assert (0 <= (i + Z.of_nat k) mod n < n) by (apply Z.mod_pos_bound; lia).
    rewrite Z.rem_mod_nonneg by lia.
    rewrite Z.add_mod_idemp_l by lia. f_equal. lia.
Qed.

Lemma prevImage_iter (p : Property num) (k : nat) : forall i : Z,
  in_gallery p i ->
  Nat.iter k (prevImage p) i = (i - Z.of_nat k) mod Z.of_nat (List.length (images p)).
Proof.
  unfold in_gallery. set (n := Z.of_nat (List.length (images p))).
  induction k as [|k IH]; intros i Hi.
  - change (Nat.iter 0 (prevImage p) i) with i.
    rewrite Z.sub_0_r, Z.mod_small; [reflexivity | exact Hi].
  - rewrite Nat.iter_succ, (IH i Hi). unfold prevImage. fold n.
    destruct (Z.eqb_spec n 0); [lia|].
    assert (0 <= (i - Z.of_nat k) mod n < n) by (apply Z.mod_pos_bound; lia).
    rewrite Z.rem_mod_nonneg by lia.
    replace ((i - Z.of_nat k) mod n - 1 + n) with ((i - Z.of_nat k) mod n + (n - 1)) by lia.
    rewrite Z.add_mod_idemp_l by lia.
    replace (i - Z.of_nat k + (n - 1)) with (i - Z.of_nat (S k) + 1 * n) by lia.
    apply Z.mod_add. lia.
Qed.

(** X17. As many steps forward, or backward, as there are images bring
    the gallery back to the image it started from. *)
Theorem gallery_full_cycle (p : Property num) (i : Z) :
  in_gallery p i ->
  Nat.iter (List.length (images p)) (nextImage p) i = i /\
  Nat.iter (List.length (images p)) (prevImage p) i = i.
Proof.
  intros Hi. rewrite (nextImage_iter p _ i Hi), (prevImage_iter p _ i Hi).
  unfold in_gallery in Hi. set (n := Z.of_nat (List.length (images p))) in *.
  split.
  - replace (i + n) with (i + 1 * n) by lia. rewrite Z.mod_add by lia. apply Z.mod_small, Hi.
  - replace (i - n) with (i + (-1) * n) by lia. rewrite Z.mod_add by lia. apply Z.mod_small, Hi.
Qed.

Lemma after_clicks_in_gallery (p : Property num) (cs : list click) : forall i : Z,
  forallb (offered p) cs = true ->
  in_gallery p i -> in_gallery p (fold_left (on_click p) cs i).
Proof.
  induction cs as [|c cs IH]; intros i Hcs Hi; [exact Hi|].
  cbn [forallb] in Hcs. apply andb_true_iff in Hcs. destruct Hcs as [Hc Hcs].
  cbn [fold_left]. apply (IH _ Hcs).
  assert (Hne : images p <> []).
  { unfold in_gallery in Hi. destruct (images p); [simpl in Hi; lia | discriminate]. }
  destruct c as [| |j]; cbn [on_click].
  - apply nextImage_in_gallery; [exact Hne | unfold in_gallery in Hi; lia].
  - apply prevImage_in_gallery; [exact Hne | unfold in_gallery in Hi; lia].
  - cbn [offered] in Hc. apply Nat.ltb_lt in Hc. unfold in_gallery. lia.
Qed.

(** X18. From the initial index 0, whatever arrows and thumbnails are
    clicked, a property with at least one image has a current image, and
    it is one of its images: the gallery never shows [undefined]. *)
Theorem gallery_shows_an_image (p : Property num) (cs : list click) :
  images p <> [] -> forallb (offered p) cs = true ->
  exists url, currentImage p (after_clicks p cs) = Some url /\ In url (images p).
Proof.
  intros Hne Hcs.
  assert (H0 : in_gallery p 0).
  { unfold in_gallery. destruct (images p); [congruence | simpl List.length; lia]. }
  pose proof (after_clicks_in_gallery p cs 0 Hcs H0) as Hi.
  unfold after_clicks. set (i := fold_left (on_click p) cs 0) in *.
  unfold in_gallery in Hi. unfold currentImage, hasImages, element.
  destruct (Z.ltb_spec 0 (Z.of_nat (List.length (images p)))); [|lia].
  destruct (Z.ltb_spec i 0); [lia|].
  destruct (nth_error (images p) (Z.to_nat i)) as [url|] eqn:E.
  - exists url. split; [reflexivity|]. eapply nth_error_In, E.
  - apply nth_error_None in E. lia.
Qed.
End GalleryFacts.

(** * The playback schedule *)

Section Schedule.
Import LiveAssistant.

Lemma SFcompare_refl (x : float) : is_nan x = false -> SFcompare x x = Some Eq.
Proof.
  destruct x as [s|[]| |[] m e]; try discriminate; intros _; try reflexivity.
  - cbn. rewrite Z.compare_refl, Pos.compare_cont_refl. reflexivity.
  - cbn. rewrite Z.compare_refl, Pos.compare_cont_refl. reflexivity.
Qed.

Lemma fle_refl (x : float) : is_nan x = false -> fle x x = true.
Proof. intros H. unfold fle, SFleb. rewrite (SFcompare_refl x H). reflexivity. Qed.

Lemma SFcompare_antisym (x y : float) :
  SFcompare y x = option_map CompOpp (SFcompare x y).
Proof.
  destruct x as [sx|sx| |sx mx ex], y as [sy|sy| |sy my ey]; try reflexivity;
    try (destruct sx; reflexivity); try (destruct sy; reflexivity);
    try (destruct sx, sy; reflexivity).
  cbn. destruct sx, sy; try reflexivity.
  - rewrite (Z.compare_antisym ey ex). destruct (ey ?= ex)%Z; cbn; try reflexivity.
    rewrite (Pos.compare_cont_antisym mx my Eq). cbn. reflexivity.
  - rewrite (Z.compare_antisym ey ex). destruct (ey ?= ex)%Z; cbn; try reflexivity.
    rewrite (Pos.compare_cont_antisym mx my Eq). cbn. reflexivity.
Qed.

Lemma SFcompare_not_nan (x y : float) :
  is_nan x = false -> is_nan y = false -> exists c, SFcompare x y = Some c.
Proof.
  destruct x, y; try discriminate; intros _ _; eexists; reflexivity.
Qed.

(** The greater of two numbers is one of them and not below either. *)
Lemma max_step_spec (h x : float) :
  is_nan h = false -> is_nan x = false ->
  fle h (max_step h x) = true /\ fle x (max_step h x) = true /\
  (max_step h x = h \/ max_step h x = x).
Proof.
  intros Hh Hx.
  assert (G : fle h (if fgt x h then x else h) = true /\
              fle x (if fgt x h then x else h) = true /\
              ((if fgt x h then x else h) = h \/ (if fgt x h then x else h) = x)).
  { pose proof (fle_refl h Hh) as Rh. pose proof (fle_refl x Hx) as Rx.
    unfold fgt, fle, SFltb, SFleb in *.
    destruct (SFcompare_not_nan h x Hh Hx) as [c Hc].
    pose proof (SFcompare_antisym h x) as Ha. rewrite Hc in Ha. cbn in Ha.
    rewrite Hc. destruct c; cbn in *; rewrite ?Ha, ?Hc, ?Rh, ?Rx; auto. }
  unfold max_step.
  destruct x as [[]| | |]; try exact G.
  destruct h as [[]| | |]; try exact G.
  cbn. auto.
Qed.

Lemma Math_max_spec (a b : float) :
  is_nan a = false -> is_nan b = false ->
  fle a (Math_max a b) = true /\ fle b (Math_max a b) = true /\
  (Math_max a b = a \/ Math_max a b = b).
Proof.
  intros Ha Hb. unfold Math_max. rewrite Ha, Hb. cbn [orb].
  assert (E : max_step (S754_infinity true) a = a).
  { destruct a as [[]|[]| |[] m e]; try discriminate; reflexivity. }
  rewrite E. apply max_step_spec; assumption.
Qed.

Lemma Math_max_zero (t : float) : nonneg t = true -> Math_max pzero t = t.
Proof. destruct t as [[]|[]| |[] m e]; try discriminate; reflexivity. Qed.

Lemma nonneg_not_nan (x : float) : nonneg x = true -> is_nan x = false.
Proof. destruct x as [[]|[]| |[] m e]; try discriminate; reflexivity. Qed.

Lemma rounded_nonneg (x : float) : rounded false x -> nonneg x = true.
Proof. intros [|m e|]; reflexivity. Qed.

Lemma fadd_time (x d : float) :
  nonneg x = true -> time d = true -> nonneg (fadd x d) = true.
Proof.
  unfold time. intros Hx Hd. apply andb_true_iff in Hd. destruct Hd as [Hd Hf].
  destruct x as [[]|[]| |[] mx ex]; try discriminate;
    destruct d as [[]|[]| |[] md ed]; try discriminate; try reflexivity.
  apply rounded_nonneg.
  unfold fadd, SFadd, binary_normalize.
  destruct (shl_align mx ex (Z.min ex ed)) as [mx' ex'].
  destruct (shl_align md ed (Z.min ex ed)) as [md' ed'].
  cbn [fst cond_Zopp]. cbn. apply binary_round_rounded.
Qed.

(** [onmessage], case by case. *)
Lemma onmessage_audio (next t d : float) (i : bool) :
  onmessage next {| audio := Some (t, d); interrupted := i |} =
  (Some {| currentTime := t; start := Math_max next t; finish := fadd (Math_max next t) d |},
   if i then flit 0 else fadd (Math_max next t) d).
Proof. unfold onmessage. cbn [audio interrupted]. destruct i; reflexivity. Qed.

Lemma onmessage_silent (next : float) (i : bool) :
  onmessage next {| audio := None; interrupted := i |} =
  (None, if i then flit 0 else next).
Proof. unfold onmessage. cbn [audio interrupted]. destruct i; reflexivity. Qed.

Lemma onmessage_time (next : float) (msg : Message) :
  nonneg next = true -> timed msg = true -> nonneg (snd (onmessage next msg)) = true.
Proof.
  intros Hn Hm. destruct msg as [[[t d]|] i]; unfold timed in Hm; cbn [audio] in Hm.
  - rewrite onmessage_audio. cbn [snd]. destruct i; [rewrite flit_0; reflexivity|].
    apply andb_true_iff in Hm. destruct Hm as [Ht Hd].
    apply fadd_time; [|exact Hd].
    unfold time in Ht. apply andb_true_iff in Ht. destruct Ht as [Ht _].
    destruct (Math_max_spec next t (nonneg_not_nan _ Hn) (nonneg_not_nan _ Ht))
      as (_ & _ & [->| ->]); assumption.
  - rewrite onmessage_silent. cbn [snd]. destruct i; [rewrite flit_0; reflexivity | exact Hn].
Qed.

Lemma after_messages_time (msgs : list Message) : forall next : float,
  nonneg next = true -> forallb timed msgs = true ->
  nonneg (after_messages next msgs) = true.
Proof.
  induction msgs as [|m msgs IH]; intros next Hn Hm; [exact Hn|].
  cbn [forallb] in Hm. apply andb_true_iff in Hm. destruct Hm as [H1 H2].
  unfold after_messages. cbn [fold_left]. apply IH; [|exact H2].
  apply onmessage_time; assumption.
Qed.

(** X19. A buffer is never started in the past nor before the end of the
    one before it: when neither the reference nor the clock is NaN, the
    time given to [source.start] is one of the two and not below
    either. *)
Theorem chunk_not_before_now (next : float) (msg : Message) (c : Chunk) :
  is_nan next = false -> fst (onmessage next msg) = Some c ->
  is_nan (currentTime c) = false ->
  fle (currentTime c) (start c) = true /\ fle next (start c) = true /\
  (start c = currentTime c \/ start c = next).
Proof.
  intros Hn Hc Ht. destruct msg as [[[t d]|] i].
  - rewrite onmessage_audio in Hc. cbn [fst] in Hc. injection Hc as <-.
    cbn [currentTime start] in *.
    destruct (Math_max_spec next t Hn Ht) as (H1 & H2 & H3). tauto.
  - rewrite onmessage_silent in Hc. discriminate.
Qed.

(** X20. After any run of messages whose clock values and durations are
    finite and not negative, two buffers that arrive one after the
    other, with no interruption in between, do not overlap: the second
    starts at the end computed for the first, or at the current time
    when that is later. *)
Theorem chunks_do_not_overlap (msgs : list Message) (m1 m2 : Message) (c1 c2 : Chunk) :
  forallb timed msgs = true -> timed m1 = true -> timed m2 = true ->
  interrupted m1 = false ->
  let t0 := after_messages (flit 0) msgs in
  fst (onmessage t0 m1) = Some c1 ->
  fst (onmessage (snd (onmessage t0 m1)) m2) = Some c2 ->
  fle (finish c1) (start c2) = true /\ fle (currentTime c2) (start c2) = true /\
  (start c2 = finish c1 \/ start c2 = currentTime c2).
Proof.
  intros Hmsgs H1 H2 Hi t0 Hc1 Hc2.
  assert (H0 : nonneg t0 = true).
  { apply after_messages_time; [rewrite flit_0; reflexivity | exact Hmsgs]. }
  pose proof (onmessage_time t0 m1 H0 H1) as Hn1.
  destruct m1 as [[[t1 d1]|] i1]; cbn [interrupted] in Hi; subst i1.
  2:{ rewrite onmessage_silent in Hc1. discriminate. }
  rewrite onmessage_audio in Hc1, Hc2, Hn1. cbn [fst snd] in *.
  injection Hc1 as <-. cbn [finish].
  set (n1 := fadd (Math_max t0 t1) d1) in *.
  destruct m2 as [[[t2 d2]|] i2].
  2:{ rewrite onmessage_silent in Hc2. discriminate. }
  rewrite onmessage_audio in Hc2. cbn [fst] in Hc2. injection Hc2 as <-.
  cbn [currentTime start].
  unfold timed in H2. cbn [audio] in H2.
  apply andb_true_iff in H2. destruct H2 as [Ht2 _].
  unfold time in Ht2. apply andb_true_iff in Ht2. destruct Ht2 as [Ht2 _].
  destruct (Math_max_spec n1 t2 (nonneg_not_nan _ Hn1) (nonneg_not_nan _ Ht2))
    as (A & B & C). tauto.
Qed.

(** X21. After a message that is flagged as interrupted, whatever was
    scheduled before, the next buffer starts at the current time. *)
Theorem playback_restarts_after_interruption (next : float) (m1 m2 : Message) (t d : float) :
  interrupted m1 = true -> audio m2 = Some (t, d) -> nonneg t = true ->
  fst (onmessage (snd (onmessage next m1)) m2) =
  Some {| currentTime := t; start := t; finish := fadd t d |}.
Proof.
  intros Hi Ha Ht.
  assert (E : snd (onmessage next m1) = pzero).
  { destruct m1 as [[[t1 d1]|] i1]; cbn [interrupted] in Hi; subst i1.
    - rewrite onmessage_audio. cbn [snd]. apply flit_0.
    - rewrite onmessage_silent. cbn [snd]. apply flit_0. }
  rewrite E. destruct m2 as [a2 i2]. cbn [audio] in Ha. subst a2.
  rewrite onmessage_audio. cbn [fst]. rewrite (Math_max_zero t Ht). reflexivity.
Qed.
End Schedule.

(** * The further theorems at concrete inputs *)

Section MoreWitnesses.
Import Format Text Media Gallery LiveAssistant.
Local Hint Extern 0 (NumberOps float) =>
  exact (Binary64.ops pow_iter) : typeclass_instances.
Local Open Scope num_scope.
Local Open Scope string_scope.

(** 5.5 prints as 5.50%. *)
Example formatPercent_5_5 : formatPercent unused Inputs.five_and_a_half = "5.50%".
Proof. vm_compute. reflexivity. Qed.

Lemma formatPercent_two_decimals_witness :
  exists (a b : string) (n : N),
    formatPercent unused Inputs.five_and_a_half =
      (match Inputs.five_and_a_half with S754_finite true _ _ => "-" | _ => EmptyString end)
      ++ a ++ "." ++ b ++ "%"
    /\ String.length b = 2%nat /\ (1 <= String.length a)%nat
    /\ read_decimal (a ++ b) = Some n
    /\ (Qabs (inject_Z (Z.of_N n) * Qmake 1 100 - magnitude Inputs.five_and_a_half)
        <= Qmake 1 200)%Q.
Proof.
  apply (formatPercent_two_decimals unused Inputs.five_and_a_half); vm_compute; reflexivity.
Defined.

(** -0.001 prints as -0.00%. *)
Lemma formatPercent_below_half_a_hundredth_witness :
  formatPercent unused (S754_finite true 4611686018427388 (-62)) = "-0.00%".
Proof.
  apply (formatPercent_below_half_a_hundredth unused true 4611686018427388 (-62)).
  vm_compute. reflexivity.
Defined.

(** Scenario C has a price of 0. *)
Lemma capRate_shown_at_zero_price_witness :
  let shown := formatPercent unused (capRate (calculateMetrics scenarioC)) in
  shown = "NaN%" \/ shown = "Infinity%" \/ shown = "-Infinity%".
Proof.
  apply (capRate_shown_at_zero_price pow_iter unused scenarioC). vm_compute. reflexivity.
Defined.

(** Scenario B has a positive cash flow, scenario A a negative one. *)
Lemma cashOnCash_sign_witness :
  flt (cashOnCashReturn (calculateMetrics scenarioB)) #0 = false
  /\ fgt (cashOnCashReturn (calculateMetrics scenarioA)) #0 = false.
Proof.
  split.
  - destruct (cashOnCash_sign pow_iter scenarioB) as [H _].
    apply H. vm_compute. reflexivity.
  - destruct (cashOnCash_sign pow_iter scenarioA) as [_ H].
    apply H. vm_compute. reflexivity.
Defined.

(** Scenario B is bought without a loan. *)
Lemma full_down_payment_witness :
  loanAmount scenarioB = pzero
  /\ is_zero (monthlyMortgage (calculateMetrics scenarioB)) = true.
Proof.
  destruct (full_down_payment pow_iter scenarioB) as (H1 & _ & H2 & _);
    try (vm_compute; reflexivity).
  split; [exact H1|]. apply H2; vm_compute; reflexivity.
Defined.

(** A request that is rejected, for a link. *)
Lemma failed_fetch_adds_defaults_witness :
  let p := newProperty "1700000000000" "https://example.com/listing/1"
             (fetchPropertyListing Inputs.no_parse None "https://example.com/listing/1") in
  address p = "New Property Listing" /\ price p = #450000 /\ images p = [].
Proof.
  intros p. unfold p.
  rewrite (failed_fetch_adds_defaults pow_iter Inputs.no_parse "1700000000000"
             "https://example.com/listing/1" None (or_introl eq_refl)).
  repeat split.
Defined.

(** An answer in prose around an array, and one with the brackets the
    wrong way round. *)
Lemma outermost_brackets_witness :
  outermost "[" "]" "Here: [1, 2] done" = "[1, 2]".
Proof.
  apply (outermost_brackets "[" "]" "Here: " "1, 2" " done"); reflexivity.
Defined.

Lemma outermost_brackets_swapped_witness :
  outermost "[" "]" "] 5 [" = " 5 ".
Proof.
  apply (outermost_brackets_swapped "[" "]" EmptyString " 5 " EmptyString);
    solve [reflexivity | discriminate].
Defined.

(** A text and an empty image before the first image. *)
Lemma editPropertyImage_first_image_witness :
  editPropertyImage
    (inr (Some [Inputs.note; Inputs.empty_image; Inputs.image; Inputs.second_image])) =
  inl "data:image/png;base64,iVBORw0KGgo=".
Proof.
  apply (proj1 (editPropertyImage_first_image [Inputs.note; Inputs.empty_image]
                  [Inputs.second_image] Inputs.image "iVBORw0KGgo=" eq_refl)).
  reflexivity.
Defined.

Lemma payload_of_data_url_witness :
  payload "data:image/jpeg;base64,/9j/4AAQ" = Some "/9j/4AAQ".
Proof.
  apply (proj1 (payload_of_data_url "data:image/jpeg;base64" "/9j/4AAQ" eq_refl)).
  reflexivity.
Defined.

(** The property added for [Inputs.listing] has three images. *)
Lemma added_images : List.length (images Inputs.added) = 3%nat.
Proof. vm_compute. reflexivity. Qed.

Lemma added_has_images : images Inputs.added <> [].
Proof. vm_compute. discriminate. Qed.

Lemma gallery_index_in_range_witness :
  in_gallery Inputs.added (nextImage Inputs.added 7)
  /\ in_gallery Inputs.added (prevImage Inputs.added 7).
Proof.
  apply (gallery_index_in_range Inputs.added 7); [exact added_has_images | lia].
Defined.

Lemma gallery_round_trip_witness :
  prevImage Inputs.added (nextImage Inputs.added 2) = 2%Z
  /\ nextImage Inputs.added (prevImage Inputs.added 0) = 0%Z.
Proof.
  split.
  - apply (gallery_round_trip Inputs.added 2). unfold in_gallery. rewrite added_images. lia.
  - apply (gallery_round_trip Inputs.added 0). unfold in_gallery. rewrite added_images. lia.
Defined.

Lemma gallery_full_cycle_witness :
  Nat.iter (List.length (images Inputs.added)) (nextImage Inputs.added) 1%Z = 1%Z.
Proof.
  apply (gallery_full_cycle Inputs.added 1). unfold in_gallery. rewrite added_images. lia.
Defined.

Lemma gallery_shows_an_image_witness :
  exists url,
    currentImage Inputs.added
      (after_clicks Inputs.added [Next; Next; Next; Prev; Thumbnail 2; Next]) = Some url
    /\ In url (images Inputs.added).
Proof.
  apply (gallery_shows_an_image Inputs.added); [exact added_has_images | reflexivity].
Defined.

(** The first buffer starts at the current time 10 and ends at 10.5; the
    second arrives at 10.2 and starts at 10.5. *)
Lemma chunk_not_before_now_witness :
  fle (of_Z 10) (start Inputs.played1) = true /\ fle pzero (start Inputs.played1) = true.
Proof.
  destruct (chunk_not_before_now pzero Inputs.chunk1 Inputs.played1) as (H1 & H2 & _);
    try (vm_compute; reflexivity).
  split; [exact H1 | exact H2].
Defined.

Lemma chunks_do_not_overlap_witness :
  fle (finish Inputs.played1) (start Inputs.played2) = true
  /\ fle (currentTime Inputs.played2) (start Inputs.played2) = true.
Proof.
  destruct (chunks_do_not_overlap [Inputs.stop] Inputs.chunk1 Inputs.chunk2
              Inputs.played1 Inputs.played2) as (H1 & H2 & _);
    try (vm_compute; reflexivity).
  split; [exact H1 | exact H2].
Defined.

Lemma playback_restarts_after_interruption_witness :
  fst (onmessage (snd (onmessage (of_Z 99) Inputs.stop)) Inputs.chunk1) =
  Some {| currentTime := of_Z 10; start := of_Z 10; finish := fadd (of_Z 10) (flit 0.5) |}.
Proof.
  apply (playback_restarts_after_interruption (of_Z 99) Inputs.stop Inputs.chunk1
           (of_Z 10) (flit 0.5)); reflexivity.
Defined.
End MoreWitnesses.
